(** * libconfig: the one-shot accessors of handy.go

    A shallow embedding of [handy.go]: the eight path accessors that borrow a
    parser from the package-level pool, and the four one-shot parse entry
    points that use a private parser.  The document engine ([Parser],
    [Value], [ParserPool]) lives in other files of the package; it is taken
    as a parameter ([DocumentEngine]) and its stateful shell is modelled
    from the specification. *)

From Stdlib Require Import ZArith List String Ascii Strings.Byte Lia.
From Stdlib Require Import Floats.SpecFloat.
From stdpp Require Import base option list gmap strings.

Local Open Scope Z_scope.

(** ** Go values used by handy.go *)

Module Go.

(** A [[]byte]: the nil slice is a value of its own, different from a
    slice of length zero that points into a buffer.  A slice that is not
    nil has storage of its own ([Slice]) or is a view into the buffer of
    parser [owner], taken during that parser's parse number [stamp]
    ([View]); a view carries the bytes the buffer held when it was taken,
    which are its bytes for as long as the parser does not parse again. *)
Inductive ByteSlice : Type :=
| NilSlice
| Slice (elems : list byte)
| View (owner stamp : nat) (elems : list byte).

Definition elems_of (b : ByteSlice) : list byte :=
  match b with
  | NilSlice => []
  | Slice l => l
  | View _ _ l => l
  end.

(** [b != nil] *)
Definition not_nil (b : ByteSlice) : bool :=
  match b with
  | NilSlice => false
  | Slice _ => true
  | View _ _ _ => true
  end.

(** [append(b, xs...)].  The nil slice has capacity zero: appending no
    element to it needs no room and gives the nil slice back; appending
    at least one element allocates, and the result has storage of its
    own.  A view is as long as its capacity, and behaves likewise. *)
Definition append (b xs : ByteSlice) : ByteSlice :=
  match b with
  | NilSlice =>
      match elems_of xs with
      | [] => NilSlice
      | x :: l => Slice (x :: l)
      end
  | Slice l => Slice (l ++ elems_of xs)
  | View o s l =>
      match elems_of xs with
      | [] => View o s l
      | x :: l' => Slice (l ++ x :: l')
      end
  end.

(** A Go [string]: its bytes are its own ([Own]), or it is a view into
    the buffer of a parser, as the engine makes them from its buffer
    without copying ([StrView], with the owner and the parse number as for
    a slice). *)
Inductive Str : Type :=
| Own (s : string)
| StrView (owner stamp : nat) (s : string).

Definition content (t : Str) : string :=
  match t with
  | Own s => s
  | StrView _ _ s => s
  end.

(** [string(sb)]: a copy of the bytes; the nil slice gives the empty
    string. *)
Definition string_of (sb : ByteSlice) : Str :=
  Own (string_of_list_byte (elems_of sb)).

(** A Go string seen as bytes (the engine's [b2s]/[s2b] views). *)
Definition b2s (b : list byte) : string := string_of_list_byte b.
Definition s2b (s : string) : list byte := list_byte_of_string s.

(** A possibly nil pointer. *)
Definition Ptr := option nat.

End Go.

(** A Rocq string stands for the Go string that owns these bytes. *)
Coercion Go.Own : string >-> Go.Str.

(** ** The document engine, as a parameter

    handy.go calls [Parser.Parse], [Parser.ParseBytes] and the [Value]
    getters, none of which is defined in it.  The pure content of the
    engine is a parameter: what a text parses to, how a path is resolved in
    a parsed document, and what each kind of node coerces to ([None] when
    the node has another shape). *)

Class DocumentEngine : Type := {
  Document : Type;
  Node : Type;
  ParseError : Type;
  Float64 : Type;
  float64_zero : Float64;
  parse_text : string -> Document + ParseError;
  navigate : Document -> list string -> option Node;
  node_string_bytes : Node -> option (list byte);
  node_int : Node -> option Z;
  node_hex : Node -> option string;
  node_bigint : Node -> option Z;
  node_float64 : Node -> option Float64;
  node_bool : Node -> option bool
}.

(** ** Program state, parsers, values and the pool *)

Section Handy.

Context {E : DocumentEngine}.

(** Modelled from the spec: the [Parser] struct, declared outside
    handy.go.  A parser owns the most recently produced parse tree; [epoch]
    counts the parses it has run, so that a document of an earlier parse
    can be told from the live one. *)
Record Parser : Type := {
  epoch : nat;
  tree : option Document
}.

(** The zero value [var p Parser]. *)
Definition zero_Parser : Parser := {| epoch := 0; tree := None |}.

(** Modelled from the spec: a [*Value], a view into the buffers of the
    parser that produced it, valid while that parser has not parsed
    again. *)
Record Value : Type := {
  owner : nat;
  stamp : nat
}.

Inductive PoolEvent : Type :=
| Acquired (p : nat)
| Released (p : nat).

(** The heap of parsers and of big integers, the idle list of the
    package-level [handyPool], and the history of its operations. *)
Record World : Type := {
  parsers : gmap nat Parser;
  next_parser : nat;
  bigints : gmap nat Z;
  next_bigint : nat;
  handyPool : list nat;
  pool_trace : list PoolEvent
}.

Definition init_world : World :=
  {| parsers := ∅; next_parser := 0%nat; bigints := ∅; next_bigint := 0%nat;
     handyPool := []; pool_trace := [] |}.

(** *** A state monad over [World] *)

Definition M (A : Type) : Type := World -> A * World.

Definition ret {A} (a : A) : M A := fun w => (a, w).

Definition bind {A B} (m : M A) (k : A -> M B) : M B :=
  fun w => let (a, w') := m w in k a w'.

Definition result {A} (m : M A) (w : World) : A := fst (m w).
Definition after {A} (m : M A) (w : World) : World := snd (m w).

Declare Scope go_scope.
Notation "x <- m ;; k" := (bind m (fun x => k))
  (at level 100, m at next level, right associativity) : go_scope.
Notation "m ;; k" := (bind m (fun _ => k))
  (at level 100, right associativity) : go_scope.
Local Open Scope go_scope.

(** *** Allocation *)

(** [&Parser{}] and the escaping [var p Parser]. *)
Definition new_Parser : M nat := fun w =>
  let p := next_parser w in
  (p, {| parsers := <[p := zero_Parser]> (parsers w);
         next_parser := S p;
         bigints := bigints w; next_bigint := next_bigint w;
         handyPool := handyPool w; pool_trace := pool_trace w |}).

(** [big.NewInt(x)] *)
Definition big_NewInt (x : Z) : M Go.Ptr := fun w =>
  let a := next_bigint w in
  (Some a, {| parsers := parsers w; next_parser := next_parser w;
              bigints := <[a := x]> (bigints w);
              next_bigint := S a;
              handyPool := handyPool w; pool_trace := pool_trace w |}).

(** Reading through a [*big.Int]. *)
Definition big_value (w : World) (n : Go.Ptr) : option Z :=
  a ← n; bigints w !! a.

(** *** ParserPool *)

(** Modelled from the spec: [ParserPool.Get], "returns an idle parser if
    one exists, otherwise constructs a new one". *)
Definition ParserPool_Get : M nat := fun w =>
  match handyPool w with
  | p :: idle =>
      (p, {| parsers := parsers w; next_parser := next_parser w;
             bigints := bigints w; next_bigint := next_bigint w;
             handyPool := idle;
             pool_trace := pool_trace w ++ [Acquired p] |})
  | [] =>
      let (p, w') := new_Parser w in
      (p, {| parsers := parsers w'; next_parser := next_parser w';
             bigints := bigints w'; next_bigint := next_bigint w';
             handyPool := [];
             pool_trace := pool_trace w' ++ [Acquired p] |})
  end.

(** Modelled from the spec: [ParserPool.Put], "returns the parser to the
    idle set for future reuse". *)
Definition ParserPool_Put (p : nat) : M unit := fun w =>
  (tt, {| parsers := parsers w; next_parser := next_parser w;
          bigints := bigints w; next_bigint := next_bigint w;
          handyPool := p :: handyPool w;
          pool_trace := pool_trace w ++ [Released p] |}).

(** *** Parser *)

(** Modelled from the spec: [Parser.Parse].  Starting a parse discards the
    parser's previous document, whatever the outcome; the outcome itself
    is a function of the text alone. *)
Definition Parser_Parse (p : nat) (s : string) : M (Value + ParseError) :=
  fun w =>
    let e := S (epoch (default zero_Parser (parsers w !! p))) in
    let store t :=
      {| parsers := <[p := {| epoch := e; tree := t |}]> (parsers w);
         next_parser := next_parser w;
         bigints := bigints w; next_bigint := next_bigint w;
         handyPool := handyPool w; pool_trace := pool_trace w |} in
    match parse_text s with
    | inl doc => (inl {| owner := p; stamp := e |}, store (Some doc))
    | inr err => (inr err, store None)
    end.

(** Modelled from the spec: [Parser.ParseBytes], the same on a byte
    buffer. *)
Definition Parser_ParseBytes (p : nat) (b : list byte) : M (Value + ParseError) :=
  Parser_Parse p (Go.b2s b).

(** *** Value *)

(** The document a value gives access to: the tree of its parser, as long
    as the parser has not parsed again. *)
Definition Value_document (w : World) (v : Value) : option Document :=
  p ← parsers w !! owner v;
  if decide (epoch p = stamp v) then tree p else None.

(** The buffer of parser [o] still holds what it held during its parse
    number [s]: the parser has not parsed again since. *)
Definition buffer_live (w : World) (o s : nat) : bool :=
  match parsers w !! o with
  | Some p => bool_decide (epoch p = s)
  | None => false
  end.

(** A slice or a string can be read in state [w]: it has storage of its
    own, or the buffer it is a view into is still live. *)
Definition slice_valid (w : World) (b : Go.ByteSlice) : bool :=
  match b with
  | Go.View o s _ => buffer_live w o s
  | _ => true
  end.

Definition str_valid (w : World) (t : Go.Str) : bool :=
  match t with
  | Go.StrView o s _ => buffer_live w o s
  | Go.Own _ => true
  end.

(** Modelled from the spec: [Value.Get], navigation by path; absent when
    the path does not resolve. *)
Definition Value_Get (v : Value) (keys : list string) : M (option Node) :=
  fun w => (doc ← Value_document w v; navigate doc keys, w).

(** Modelled from the spec: the getters of [Value]: navigate, then coerce;
    "coercion of absent or of a node of an incompatible shape yields the
    type's declared default".  The bytes and the strings they return are
    "a view into the parser's internal buffer"; numbers and booleans are
    values. *)
Definition Value_GetStringBytes (v : Value) (keys : list string) : M Go.ByteSlice :=
  n <- Value_Get v keys ;;
  ret (match n ≫= node_string_bytes with
       | Some l => Go.View (owner v) (stamp v) l
       | None => Go.NilSlice
       end).

Definition Value_GetInt (v : Value) (keys : list string) : M Z :=
  n <- Value_Get v keys ;;
  ret (default 0 (n ≫= node_int)).

Definition Value_GetHex (v : Value) (keys : list string) : M Go.Str :=
  n <- Value_Get v keys ;;
  ret (match n ≫= node_hex with
       | Some h => Go.StrView (owner v) (stamp v) h
       | None => Go.Own EmptyString
       end).

Definition Value_GetBigint (v : Value) (keys : list string) : M Go.Ptr :=
  n <- Value_Get v keys ;;
  big_NewInt (default 0 (n ≫= node_bigint)).

Definition Value_GetFloat64 (v : Value) (keys : list string) : M Float64 :=
  n <- Value_Get v keys ;;
  ret (default float64_zero (n ≫= node_float64)).

Definition Value_GetBool (v : Value) (keys : list string) : M bool :=
  n <- Value_Get v keys ;;
  ret (default false (n ≫= node_bool)).

Definition Value_Exists (v : Value) (keys : list string) : M bool :=
  n <- Value_Get v keys ;;
  ret (bool_decide (is_Some n)).

(** ** handy.go *)

Definition GetString (data : list byte) (keys : list string) : M Go.Str :=
  p <- ParserPool_Get ;;
  r <- Parser_ParseBytes p data ;;
  match r with
  | inr err =>
      ParserPool_Put p ;;
      ret (Go.Own EmptyString)
  | inl v =>
      sb <- Value_GetStringBytes v keys ;;
      let str := Go.string_of sb in
      ParserPool_Put p ;;
      ret str
  end.

Definition GetBytes (data : list byte) (keys : list string) : M Go.ByteSlice :=
  p <- ParserPool_Get ;;
  r <- Parser_ParseBytes p data ;;
  match r with
  | inr err =>
      ParserPool_Put p ;;
      ret Go.NilSlice
  | inl v =>
      sb <- Value_GetStringBytes v keys ;;
      let b := Go.NilSlice in
      let b := if Go.not_nil sb then Go.append b sb else b in
      ParserPool_Put p ;;
      ret b
  end.

Definition GetInt (data : list byte) (keys : list string) : M Z :=
  p <- ParserPool_Get ;;
  r <- Parser_ParseBytes p data ;;
  match r with
  | inr err =>
      ParserPool_Put p ;;
      ret 0
  | inl v =>
      n <- Value_GetInt v keys ;;
      ParserPool_Put p ;;
      ret n
  end.

Definition GetHex (data : list byte) (keys : list string) : M Go.Str :=
  p <- ParserPool_Get ;;
  r <- Parser_ParseBytes p data ;;
  match r with
  | inr err =>
      ParserPool_Put p ;;
      ret (Go.Own EmptyString)
  | inl v =>
      n <- Value_GetHex v keys ;;
      ParserPool_Put p ;;
      ret n
  end.

Definition GetBigint (data : list byte) (keys : list string) : M Go.Ptr :=
  p <- ParserPool_Get ;;
  r <- Parser_ParseBytes p data ;;
  match r with
  | inr err =>
      ParserPool_Put p ;;
      big_NewInt 0
  | inl v =>
      n <- Value_GetBigint v keys ;;
      ParserPool_Put p ;;
      ret n
  end.

Definition GetFloat64 (data : list byte) (keys : list string) : M Float64 :=
  p <- ParserPool_Get ;;
  r <- Parser_ParseBytes p data ;;
  match r with
  | inr err =>
      ParserPool_Put p ;;
      ret float64_zero
  | inl v =>
      f <- Value_GetFloat64 v keys ;;
      ParserPool_Put p ;;
      ret f
  end.

Definition GetBool (data : list byte) (keys : list string) : M bool :=
  p <- ParserPool_Get ;;
  r <- Parser_ParseBytes p data ;;
  match r with
  | inr err =>
      ParserPool_Put p ;;
      ret false
  | inl v =>
      b <- Value_GetBool v keys ;;
      ParserPool_Put p ;;
      ret b
  end.

Definition Exists (data : list byte) (keys : list string) : M bool :=
  p <- ParserPool_Get ;;
  r <- Parser_ParseBytes p data ;;
  match r with
  | inr err =>
      ParserPool_Put p ;;
      ret false
  | inl v =>
      ok <- Value_Exists v keys ;;
      ParserPool_Put p ;;
      ret ok
  end.

Definition Parse (s : string) : M (Value + ParseError) :=
  p <- new_Parser ;;
  Parser_Parse p s.

(** How a call ends: it returns, or it panics with a cause. *)
Inductive Outcome (A : Type) : Type :=
| Returns (a : A)
| Panics (cause : ParseError).
Arguments Returns {A} a.
Arguments Panics {A} cause.

Definition MustParse (s : string) : M (Outcome Value) :=
  r <- Parse s ;;
  match r with
  | inr err => ret (Panics err)
  | inl v => ret (Returns v)
  end.

Definition ParseBytes (b : list byte) : M (Value + ParseError) :=
  p <- new_Parser ;;
  Parser_ParseBytes p b.

Definition MustParseBytes (b : list byte) : M (Outcome Value) :=
  r <- ParseBytes b ;;
  match r with
  | inr err => ret (Panics err)
  | inl v => ret (Returns v)
  end.

(** ** Histories of calls and the shape of reachable states *)

(** One borrow of a pooled parser around a parse of [data]: what every
    accessor does to the pool and to the parser heap. *)
Definition pool_cycle (data : list byte) : M unit :=
  p <- ParserPool_Get ;;
  _ <- Parser_ParseBytes p data ;;
  ParserPool_Put p.

(** The parser a call takes: the head of the idle list, or a new one. *)
Definition taken (w : World) : nat := hd (next_parser w) (handyPool w).

(** The number of the parse an accessor runs on the parser it takes: one
    more than the parses that parser has run, the first for a new one. *)
Definition taken_stamp (w : World) : nat :=
  match handyPool w with
  | [] => 1%nat
  | p :: _ => S (epoch (default zero_Parser (parsers w !! p)))
  end.

(** The node a path resolves to in a document given as bytes, when the
    bytes are well formed and the path resolves. *)
Definition resolve (data : list byte) (keys : list string) : option Node :=
  match parse_text (Go.b2s data) with
  | inl doc => navigate doc keys
  | inr _ => None
  end.

(** A call of one of the functions of handy.go. *)
Inductive Call : Type :=
| CallGetString (data : list byte) (keys : list string)
| CallGetBytes (data : list byte) (keys : list string)
| CallGetInt (data : list byte) (keys : list string)
| CallGetHex (data : list byte) (keys : list string)
| CallGetBigint (data : list byte) (keys : list string)
| CallGetFloat64 (data : list byte) (keys : list string)
| CallGetBool (data : list byte) (keys : list string)
| CallExists (data : list byte) (keys : list string)
| CallParse (s : string)
| CallMustParse (s : string)
| CallParseBytes (b : list byte)
| CallMustParseBytes (b : list byte).

Definition run_call (c : Call) (w : World) : World :=
  match c with
  | CallGetString data keys => after (GetString data keys) w
  | CallGetBytes data keys => after (GetBytes data keys) w
  | CallGetInt data keys => after (GetInt data keys) w
  | CallGetHex data keys => after (GetHex data keys) w
  | CallGetBigint data keys => after (GetBigint data keys) w
  | CallGetFloat64 data keys => after (GetFloat64 data keys) w
  | CallGetBool data keys => after (GetBool data keys) w
  | CallExists data keys => after (Exists data keys) w
  | CallParse s => after (Parse s) w
  | CallMustParse s => after (MustParse s) w
  | CallParseBytes b => after (ParseBytes b) w
  | CallMustParseBytes b => after (MustParseBytes b) w
  end.

Definition run_calls (cs : list Call) (w : World) : World :=
  fold_left (fun w c => run_call c w) cs w.

(** States in which every address in use has been allocated: idle parsers
    are allocated, and nothing lives at or above the allocation counters. *)
Record wf (w : World) : Prop := {
  wf_pool : Forall (fun p => (p < next_parser w)%nat) (handyPool w);
  wf_parsers : forall a, (next_parser w <= a)%nat -> parsers w !! a = None;
  wf_bigints : forall a, (next_bigint w <= a)%nat -> bigints w !! a = None
}.

(** Parser [o] is allocated and is not idle in the pool. *)
Definition private (o : nat) (w : World) : Prop :=
  (o < next_parser w)%nat /\ o ∉ handyPool w.

(** The call [m] acquired one parser and released that same parser once:
    the history of the pool grows by exactly these two events, and the
    parser ends up idle in place of the one taken. *)
Definition borrows_once {A} (m : M A) (w : World) : Prop :=
  exists p,
    pool_trace (after m w) = pool_trace w ++ [Acquired p; Released p]
    /\ handyPool (after m w) = p :: tl (handyPool w).

(** The calls of the eight path accessors, as opposed to the four parse
    entry points. *)
Definition is_accessor (c : Call) : bool :=
  match c with
  | CallParse _ | CallMustParse _ | CallParseBytes _ | CallMustParseBytes _ =>
      false
  | _ => true
  end.

Definition accessor_calls (cs : list Call) : nat :=
  length (List.filter is_accessor cs).

Definition parse_calls (cs : list Call) : nat :=
  length (List.filter (fun c => negb (is_accessor c)) cs).

(** The history of [n] borrows of parser [p], one after the other. *)
Fixpoint borrows (p : nat) (n : nat) : list PoolEvent :=
  match n with
  | O => []
  | S m => Acquired p :: Released p :: borrows p m
  end.

End Handy.

Arguments Returns {E A} a.
Arguments Panics {E A} cause.

(** ** A document engine for JSON

    Modelled from the spec: the document engine the package provides
    outside handy.go ("the JSON grammar, the recursive-descent/scanning
    algorithm, and the in-memory tree representation").  Nodes are of the
    six JSON types of the glossary; the parse errors are the four kinds
    the spec lists.  It instantiates [DocumentEngine], so that the
    accessors can be run on concrete documents. *)

Module Json.

Inductive SyntaxError : Type :=
| UnexpectedEnd
| MalformedSyntax
| InvalidEscape
| TrailingData.

(** A number literal, as written: sign, integer digits, the digits after
    the point with their count, and the exponent. *)
Record Number : Type := {
  negative : bool;
  integer : N;
  fraction : option (N * nat);
  exponent : option Z
}.

#[warnings="-register-all"] Inductive Json : Type :=
| JNull
| JBool (b : bool)
| JNumber (n : Number)
| JString (s : string)
| JArray (elems : list Json)
| JObject (members : list (string * Json)).

(** *** Characters *)

Definition code (c : ascii) : N := N_of_ascii c.

Definition is_code (n : N) (c : ascii) : bool := (code c =? n)%N.

Definition dquote : N := 34%N.
Definition backslash : N := 92%N.

Definition is_space (c : ascii) : bool :=
  is_code 32 c || is_code 10 c || is_code 9 c || is_code 13 c.

Definition digit_val (c : ascii) : option N :=
  let n := code c in
  if ((48 <=? n) && (n <=? 57))%N then Some (n - 48)%N else None.

Definition hex_val (c : ascii) : option N :=
  let n := code c in
  if ((48 <=? n) && (n <=? 57))%N then Some (n - 48)%N
  else if ((97 <=? n) && (n <=? 102))%N then Some (n - 87)%N
  else if ((65 <=? n) && (n <=? 70))%N then Some (n - 55)%N
  else None.

Fixpoint skipWS (s : string) : string :=
  match s with
  | String c r => if is_space c then skipWS r else s
  | EmptyString => s
  end.

(** [strip lit s]: the rest of [s] after the literal [lit], if [s]
    starts with it. *)
Fixpoint strip (lit s : string) : option string :=
  match lit with
  | EmptyString => Some s
  | String a lit' =>
      match s with
      | String c r => if Ascii.eqb a c then strip lit' r else None
      | EmptyString => None
      end
  end.

(** *** Strings *)

Definition byte_char (n : N) : ascii := ascii_of_N n.

(** The UTF-8 encoding of a code point. *)
Definition utf8 (cp : N) : list ascii :=
  (if cp <? 128 then [byte_char cp]
   else if cp <? 2048 then
     [byte_char (192 + cp / 64); byte_char (128 + cp mod 64)]
   else if cp <? 65536 then
     [byte_char (224 + cp / 4096); byte_char (128 + (cp / 64) mod 64);
      byte_char (128 + cp mod 64)]
   else
     [byte_char (240 + cp / 262144); byte_char (128 + (cp / 4096) mod 64);
      byte_char (128 + (cp / 64) mod 64); byte_char (128 + cp mod 64)])%N.

Definition hex4 (a b c d : ascii) : option N :=
  x ← hex_val a; y ← hex_val b; z ← hex_val c; t ← hex_val d;
  Some (((x * 16 + y) * 16 + z) * 16 + t)%N.

Definition simple_escape (c : ascii) : option ascii :=
  let n := code c in
  if (n =? 34)%N then Some (byte_char 34)
  else if (n =? 92)%N then Some (byte_char 92)
  else if (n =? 47)%N then Some (byte_char 47)
  else if (n =? 98)%N then Some (byte_char 8)
  else if (n =? 102)%N then Some (byte_char 12)
  else if (n =? 110)%N then Some (byte_char 10)
  else if (n =? 114)%N then Some (byte_char 13)
  else if (n =? 116)%N then Some (byte_char 9)
  else None.

Definition prepend (cs : list ascii) (r : (string * string) + SyntaxError)
  : (string * string) + SyntaxError :=
  match r with
  | inl (body, rest) => inl (fold_right String body cs, rest)
  | inr e => inr e
  end.

(** The body of a string, read after its opening quote, up to and
    including the closing quote; escapes are decoded. *)
Fixpoint string_body (s : string) : (string * string) + SyntaxError :=
  match s with
  | EmptyString => inr UnexpectedEnd
  | String c r =>
      if is_code dquote c then inl (EmptyString, r)
      else if is_code backslash c then
        match r with
        | EmptyString => inr UnexpectedEnd
        | String e r1 =>
            match simple_escape e with
            | Some ch => prepend [ch] (string_body r1)
            | None =>
                if is_code 117 e then
                  match r1 with
                  | String h1 (String h2 (String h3 (String h4 r2))) =>
                      match hex4 h1 h2 h3 h4 with
                      | None => inr InvalidEscape
                      | Some hi =>
                          if ((hi <? 55296) || (57344 <=? hi))%N then
                            prepend (utf8 hi) (string_body r2)
                          else if (hi <? 56320)%N then
                            match r2 with
                            | String b (String u (String l1 (String l2
                                (String l3 (String l4 r3))))) =>
                                match hex4 l1 l2 l3 l4 with
                                | Some lo =>
                                    if is_code backslash b && is_code 117 u
                                       && (56320 <=? lo)%N && (lo <? 57344)%N
                                    then prepend
                                           (utf8 (65536 + (hi - 55296) * 1024
                                                  + (lo - 56320))%N)
                                           (string_body r3)
                                    else inr InvalidEscape
                                | None => inr InvalidEscape
                                end
                            | _ => inr InvalidEscape
                            end
                          else inr InvalidEscape
                      end
                  | _ => inr UnexpectedEnd
                  end
                else inr InvalidEscape
            end
        end
      else if (code c <? 32)%N then inr MalformedSyntax
      else prepend [c] (string_body r)
  end.

(** *** Numbers *)

(** The longest run of digits at the start of [s]: its value, its length
    and the rest. *)
Fixpoint digits (s : string) (acc : N) (count : nat) : N * nat * string :=
  match s with
  | String c r =>
      match digit_val c with
      | Some d => digits r (acc * 10 + d)%N (S count)
      | None => (acc, count, s)
      end
  | EmptyString => (acc, count, s)
  end.

Definition starts_with (n : N) (s : string) : bool :=
  match s with
  | String c _ => is_code n c
  | EmptyString => false
  end.

Definition tail (s : string) : string :=
  match s with
  | String _ r => r
  | EmptyString => s
  end.

(** A number literal: an optional minus sign; the integer part, a single
    zero or digits that do not start with zero; optionally a point and at
    least one digit; optionally [e] or [E], a sign and at least one
    digit. *)
Definition number (s : string) : (Number * string) + SyntaxError :=
  let neg := starts_with 45 s in
  let s1 := if neg then tail s else s in
  let '(ip, ni, s2) := digits s1 0%N 0%nat in
  if (ni =? 0)%nat then
    match s1 with EmptyString => inr UnexpectedEnd | _ => inr MalformedSyntax end
  else if starts_with 48 s1 && (1 <? ni)%nat then inr MalformedSyntax
  else
    let frac :=
      if starts_with 46 s2 then
        let '(fp, nf, s3) := digits (tail s2) 0%N 0%nat in
        if (nf =? 0)%nat then inr MalformedSyntax else inl (Some (fp, nf), s3)
      else inl (None, s2) in
    match frac with
    | inr e => inr e
    | inl (fr, s3) =>
        if starts_with 101 s3 || starts_with 69 s3 then
          let s4 := tail s3 in
          let eneg := starts_with 45 s4 in
          let s5 := if eneg || starts_with 43 s4 then tail s4 else s4 in
          let '(ep, ne, s6) := digits s5 0%N 0%nat in
          if (ne =? 0)%nat then inr MalformedSyntax
          else
            let ex := if eneg then - Z.of_N ep else Z.of_N ep in
            inl ({| negative := neg; integer := ip; fraction := fr;
                    exponent := Some ex |}, s6)
        else
          inl ({| negative := neg; integer := ip; fraction := fr;
                  exponent := None |}, s3)
    end.

(** *** Values *)

Definition expect (n : N) (s : string) : string + SyntaxError :=
  match s with
  | EmptyString => inr UnexpectedEnd
  | String c r => if is_code n c then inl r else inr MalformedSyntax
  end.

(** Recursive descent; [fuel] bounds the number of nested calls. *)
Fixpoint value (fuel : nat) (s : string) : (Json * string) + SyntaxError :=
  match fuel with
  | O => inr MalformedSyntax
  | S f =>
      match s with
      | EmptyString => inr UnexpectedEnd
      | String c r =>
          if is_code 123 c then
            let r1 := skipWS r in
            if starts_with 125 r1 then inl (JObject [], tail r1)
            else
              match members f r1 with
              | inl (ms, rest) => inl (JObject ms, rest)
              | inr e => inr e
              end
          else if is_code 91 c then
            let r1 := skipWS r in
            if starts_with 93 r1 then inl (JArray [], tail r1)
            else
              match elements f r1 with
              | inl (vs, rest) => inl (JArray vs, rest)
              | inr e => inr e
              end
          else if is_code dquote c then
            match string_body r with
            | inl (str, rest) => inl (JString str, rest)
            | inr e => inr e
            end
          else
            match strip "true" s, strip "false" s, strip "null" s with
            | Some rest, _, _ => inl (JBool true, rest)
            | _, Some rest, _ => inl (JBool false, rest)
            | _, _, Some rest => inl (JNull, rest)
            | None, None, None =>
                match number s with
                | inl (n, rest) => inl (JNumber n, rest)
                | inr e => inr e
                end
            end
      end
  end

with elements (fuel : nat) (s : string) : (list Json * string) + SyntaxError :=
  match fuel with
  | O => inr MalformedSyntax
  | S f =>
      match value f (skipWS s) with
      | inr e => inr e
      | inl (v, r) =>
          match skipWS r with
          | EmptyString => inr UnexpectedEnd
          | String c r1 =>
              if is_code 44 c then
                match elements f r1 with
                | inl (vs, rest) => inl (v :: vs, rest)
                | inr e => inr e
                end
              else if is_code 93 c then inl ([v], r1)
              else inr MalformedSyntax
          end
      end
  end

with members (fuel : nat) (s : string) : (list (string * Json) * string) + SyntaxError :=
  match fuel with
  | O => inr MalformedSyntax
  | S f =>
      match expect dquote (skipWS s) with
      | inr e => inr e
      | inl r =>
          match string_body r with
          | inr e => inr e
          | inl (k, r1) =>
              match expect 58 (skipWS r1) with
              | inr e => inr e
              | inl r2 =>
                  match value f (skipWS r2) with
                  | inr e => inr e
                  | inl (v, r3) =>
                      match skipWS r3 with
                      | EmptyString => inr UnexpectedEnd
                      | String c r4 =>
                          if is_code 44 c then
                            match members f r4 with
                            | inl (ms, rest) => inl ((k, v) :: ms, rest)
                            | inr e => inr e
                            end
                          else if is_code 125 c then inl ([(k, v)], r4)
                          else inr MalformedSyntax
                      end
                  end
              end
          end
      end
  end.

(** A whole text: one value, with nothing but white space around it. *)
Definition parse (s : string) : Json + SyntaxError :=
  match value (2 * String.length s + 2) (skipWS s) with
  | inr e => inr e
  | inl (v, rest) =>
      match skipWS rest with
      | EmptyString => inl v
      | String _ _ => inr TrailingData
      end
  end.

(** *** Navigation *)

(** A path segment made of decimal digits only, as an array index. *)
Definition index_of (k : string) : option nat :=
  match digits k 0%N 0%nat with
  | (n, S _, EmptyString) => Some (N.to_nat n)
  | _ => None
  end.

(** The first member of an object with the given key. *)
Fixpoint member (k : string) (ms : list (string * Json)) : option Json :=
  match ms with
  | [] => None
  | (k', v) :: rest => if String.eqb k' k then Some v else member k rest
  end.

(** Resolution of a path, segment by segment, from the root: a key in an
    object, an index in an array, absent anywhere else. *)
Fixpoint get (v : Json) (keys : list string) : option Json :=
  match keys with
  | [] => Some v
  | k :: ks =>
      match v with
      | JObject ms =>
          match member k ms with
          | Some x => get x ks
          | None => None
          end
      | JArray es =>
          match index_of k with
          | Some i =>
              match nth_error es i with
              | Some x => get x ks
              | None => None
              end
          | None => None
          end
      | _ => None
      end
  end.

(** *** Coercions *)

Definition as_string_bytes (v : Json) : option (list byte) :=
  match v with
  | JString s => Some (list_byte_of_string s)
  | _ => None
  end.

Definition int_literal (n : Number) : option Z :=
  match fraction n, exponent n with
  | None, None =>
      Some (if negative n then - Z.of_N (integer n) else Z.of_N (integer n))
  | _, _ => None
  end.

Definition as_bigint (v : Json) : option Z :=
  match v with
  | JNumber n => int_literal n
  | _ => None
  end.

(** Go's [int] is 64 bits wide. *)
Definition as_int (v : Json) : option Z :=
  match v with
  | JNumber n =>
      z ← int_literal n;
      if (- 2 ^ 63 <=? z) && (z <? 2 ^ 63) then Some z else None
  | _ => None
  end.

Fixpoint all_hex (s : string) : bool :=
  match s with
  | EmptyString => true
  | String c r => bool_decide (is_Some (hex_val c)) && all_hex r
  end.

Definition as_hex (v : Json) : option string :=
  match v with
  | JString (String c r) => if all_hex (String c r) then Some (String c r) else None
  | _ => None
  end.

Definition as_bool (v : Json) : option bool :=
  match v with
  | JBool b => Some b
  | _ => None
  end.

(** The binary64 number nearest to a literal (ties to even): the literal
    is [m * 10 ^ e] for integers [m] and [e]; a negative [e] is a division,
    carried out with 64 bits to spare and a sticky bit below them. *)
Definition binary64 (n : Number) : spec_float :=
  let sign (z : Z) := if negative n then - z else z in
  let '(m, e) :=
    match fraction n with
    | Some (fp, nf) =>
        (Z.of_N (integer n) * 10 ^ Z.of_nat nf + Z.of_N fp,
         default 0 (exponent n) - Z.of_nat nf)
    | None => (Z.of_N (integer n), default 0 (exponent n))
    end in
  if m =? 0 then S754_zero (negative n)
  else if 0 <=? e then binary_normalize 53 1024 (sign (m * 10 ^ e)) 0 false
  else
    let k := 10 ^ (- e) in
    let s := Z.log2_up k + 64 in
    let q := (m * 2 ^ s) / k in
    let sticky := if (m * 2 ^ s) mod k =? 0 then 0 else 1 in
    binary_normalize 53 1024 (sign (2 * q + sticky)) (- (s + 1)) false.

Definition as_float64 (v : Json) : option spec_float :=
  match v with
  | JNumber n => Some (binary64 n)
  | _ => None
  end.

#[export] Instance engine : DocumentEngine := {|
  Document := Json;
  Node := Json;
  ParseError := SyntaxError;
  Float64 := spec_float;
  float64_zero := S754_zero false;
  parse_text := parse;
  navigate := get;
  node_string_bytes := as_string_bytes;
  node_int := as_int;
  node_hex := as_hex;
  node_bigint := as_bigint;
  node_float64 := as_float64;
  node_bool := as_bool
|}.

Fixpoint all_digits (s : string) : bool :=
  match s with
  | EmptyString => true
  | String c r => bool_decide (is_Some (digit_val c)) && all_digits r
  end.

(** A non-empty string of decimal digits. *)
Definition digit_string (k : string) : bool :=
  match k with
  | EmptyString => false
  | String _ _ => all_digits k
  end.

(** The node of an integer literal without sign. *)
Definition int_node (n : N) : Json :=
  JNumber {| negative := false; integer := n; fraction := None;
             exponent := None |}.

(** *** Documents to run the accessors on

    The texts below are written with an apostrophe wherever the document
    has a double quote. *)

Fixpoint quoted (s : string) : string :=
  match s with
  | EmptyString => EmptyString
  | String c r => String (if is_code 39 c then byte_char dquote else c) (quoted r)
  end.

Definition bytes (s : string) : list byte := Go.s2b (quoted s).

Definition doc_nested : list byte := bytes "{'a':{'b':42}}".
Definition doc_array : list byte := bytes "{'arr':[10,20,30]}".
Definition doc_scalar : list byte := bytes "{'a':1}".
Definition doc_malformed : list byte := bytes "not json".
Definition doc_hex : list byte := bytes "{'h':'1f'}".
Definition doc_big : list byte := bytes "{'big':123456789012345678901234567890}".
Definition doc_empty_string : list byte := bytes "{'a':''}".
Definition doc_mixed : list byte :=
  bytes "{'s':'caf\u00e9', 'f':-1.5e2, 't':true, 'n':null, '7':[[],{}]}".
Definition doc_digit_key : list byte := bytes "{'1':'one','arr':[10,20,30]}".

Definition tree_nested : Json := JObject [("a", JObject [("b", int_node 42)])].
Definition tree_array : Json :=
  JObject [("arr", JArray [int_node 10; int_node 20; int_node 30])].
Definition tree_scalar : Json := JObject [("a", int_node 1)].
Definition tree_hex : Json := JObject [("h", JString "1f")].
Definition tree_empty_string : Json := JObject [("a", JString EmptyString)].

(** A state with some history: a pooled parser that has been used twice,
    a private parser and its document. *)
Definition busy_world : World :=
  run_calls [CallGetHex doc_hex ["h"]; CallParse (Go.b2s doc_big);
             CallGetString doc_malformed []] init_world.

End Json.

(** ** Properties of handy.go, for any document engine *)

Section HandyProperties.

Context {E : DocumentEngine}.

(** *** What one borrow of a pooled parser does *)

Lemma ParserPool_Get_result (w : World) : result ParserPool_Get w = taken w.
Proof. unfold result, ParserPool_Get, taken. destruct (handyPool w); reflexivity. Qed.

Lemma parsed_document (p : nat) (s : string) (w : World) (v : Value) :
  result (Parser_Parse p s) w = inl v ->
  exists doc, parse_text s = inl doc
              /\ Value_document (after (Parser_Parse p s) w) v = Some doc.
Proof.
  unfold result, after, Parser_Parse.
  destruct (parse_text s) as [doc|err]; simpl; intros H; [|discriminate].
  injection H as <-. exists doc. split; [reflexivity|].
  unfold Value_document; simpl. rewrite lookup_insert_eq; simpl.
  rewrite decide_True by reflexivity. reflexivity.
Qed.

(** Running an accessor: all eight acquire, parse and release in the same
    way; [run_accessor] unfolds one of them down to the two case
    distinctions its execution depends on. *)
Ltac run_accessor w data :=
  unfold result, after, GetString, GetBytes, GetInt, GetHex, GetBigint,
    GetFloat64, GetBool, Exists, pool_cycle, resolve, bind, ret,
    ParserPool_Get, ParserPool_Put, Parser_ParseBytes, Parser_Parse,
    Value_GetStringBytes, Value_GetInt, Value_GetHex, Value_GetBigint,
    Value_GetFloat64, Value_GetBool, Value_Exists, Value_Get, Value_document,
    big_NewInt, new_Parser;
  destruct (handyPool w) as [|p idle]; simpl;
  destruct (parse_text (Go.b2s data)) as [doc|err]; simpl;
  rewrite ?lookup_insert_eq; simpl;
  rewrite ?decide_True by reflexivity; simpl.

Lemma GetString_run (data : list byte) (keys : list string) (w : World) :
  GetString data keys w
  = (Go.Own
       (string_of_list_byte (default [] (resolve data keys ≫= node_string_bytes))),
     after (pool_cycle data) w).
Proof.
  run_accessor w data; try reflexivity;
    destruct (navigate doc keys ≫= node_string_bytes); reflexivity.
Qed.

Lemma GetBytes_run (data : list byte) (keys : list string) (w : World) :
  GetBytes data keys w
  = (match resolve data keys ≫= node_string_bytes with
     | Some (x :: l) => Go.Slice (x :: l)
     | _ => Go.NilSlice
     end,
     after (pool_cycle data) w).
Proof.
  run_accessor w data; try reflexivity;
    destruct (navigate doc keys ≫= node_string_bytes) as [[|x l]|]; reflexivity.
Qed.

Lemma GetInt_run (data : list byte) (keys : list string) (w : World) :
  GetInt data keys w
  = (default 0 (resolve data keys ≫= node_int), after (pool_cycle data) w).
Proof. run_accessor w data; reflexivity. Qed.

Lemma GetHex_run (data : list byte) (keys : list string) (w : World) :
  GetHex data keys w
  = (match resolve data keys ≫= node_hex with
     | Some h => Go.StrView (taken w) (taken_stamp w) h
     | None => Go.Own EmptyString
     end,
     after (pool_cycle data) w).
Proof.
  unfold taken, taken_stamp. run_accessor w data; try reflexivity;
    destruct (navigate doc keys ≫= node_hex); reflexivity.
Qed.

Lemma GetBigint_run (data : list byte) (keys : list string) (w : World) :
  GetBigint data keys w
  = big_NewInt (default 0 (resolve data keys ≫= node_bigint))
      (after (pool_cycle data) w).
Proof. run_accessor w data; reflexivity. Qed.

Lemma GetFloat64_run (data : list byte) (keys : list string) (w : World) :
  GetFloat64 data keys w
  = (default float64_zero (resolve data keys ≫= node_float64),
     after (pool_cycle data) w).
Proof. run_accessor w data; reflexivity. Qed.

Lemma GetBool_run (data : list byte) (keys : list string) (w : World) :
  GetBool data keys w
  = (default false (resolve data keys ≫= node_bool), after (pool_cycle data) w).
Proof. run_accessor w data; reflexivity. Qed.

Lemma Exists_run (data : list byte) (keys : list string) (w : World) :
  Exists data keys w
  = (bool_decide (is_Some (resolve data keys)), after (pool_cycle data) w).
Proof. run_accessor w data; reflexivity. Qed.

Lemma resolve_ok (data : list byte) (keys : list string) (doc : Document) :
  parse_text (Go.b2s data) = inl doc -> resolve data keys = navigate doc keys.
Proof. unfold resolve. intros ->. reflexivity. Qed.

Lemma resolve_malformed (data : list byte) (keys : list string) (err : ParseError) :
  parse_text (Go.b2s data) = inr err -> resolve data keys = None.
Proof. unfold resolve. intros ->. reflexivity. Qed.

(** *** The pool and the heaps across one borrow *)

Lemma pool_cycle_trace (data : list byte) (w : World) :
  pool_trace (after (pool_cycle data) w)
  = pool_trace w ++ [Acquired (taken w); Released (taken w)].
Proof.
  unfold taken. run_accessor w data; rewrite <- app_assoc; reflexivity.
Qed.

Lemma pool_cycle_idle (data : list byte) (w : World) :
  handyPool (after (pool_cycle data) w) = taken w :: tl (handyPool w).
Proof. unfold taken. run_accessor w data; reflexivity. Qed.

Lemma pool_cycle_next_parser (data : list byte) (w : World) :
  next_parser (after (pool_cycle data) w)
  = match handyPool w with [] => S (next_parser w) | _ => next_parser w end.
Proof. run_accessor w data; reflexivity. Qed.

Lemma pool_cycle_bigints (data : list byte) (w : World) :
  bigints (after (pool_cycle data) w) = bigints w
  /\ next_bigint (after (pool_cycle data) w) = next_bigint w.
Proof. run_accessor w data; split; reflexivity. Qed.

Lemma pool_cycle_parsers (data : list byte) (w : World) (a : nat) :
  a <> taken w ->
  parsers (after (pool_cycle data) w) !! a = parsers w !! a.
Proof.
  unfold taken. run_accessor w data; intros Ha;
    rewrite ?lookup_insert_ne by congruence; reflexivity.
Qed.

Lemma pool_cycle_taken (data : list byte) (w : World) :
  is_Some (parsers (after (pool_cycle data) w) !! taken w).
Proof.
  unfold taken. run_accessor w data; rewrite ?lookup_insert_eq; eauto.
Qed.

(** *** The one-shot entry points *)

Lemma Parse_fields (s : string) (w : World) :
  handyPool (after (Parse s) w) = handyPool w
  /\ pool_trace (after (Parse s) w) = pool_trace w
  /\ bigints (after (Parse s) w) = bigints w
  /\ next_bigint (after (Parse s) w) = next_bigint w
  /\ next_parser (after (Parse s) w) = S (next_parser w).
Proof.
  unfold after, Parse, bind, new_Parser, Parser_Parse; simpl.
  destruct (parse_text s); simpl; repeat split; reflexivity.
Qed.

Lemma Parse_parsers (s : string) (w : World) (a : nat) :
  a <> next_parser w ->
  parsers (after (Parse s) w) !! a = parsers w !! a.
Proof.
  intros Ha. unfold after, Parse, bind, new_Parser, Parser_Parse; simpl.
  destruct (parse_text s); simpl; rewrite !lookup_insert_ne by congruence;
    reflexivity.
Qed.

Lemma Parse_result (s : string) (w : World) :
  result (Parse s) w
  = match parse_text s with
    | inl _ => inl {| owner := next_parser w; stamp := 1 |}
    | inr err => inr err
    end.
Proof.
  unfold result, Parse, bind, new_Parser, Parser_Parse; simpl.
  rewrite lookup_insert_eq; simpl. destruct (parse_text s); reflexivity.
Qed.

Lemma Parse_document (s : string) (w : World) (doc : Document) :
  parse_text s = inl doc ->
  parsers (after (Parse s) w) !! next_parser w
  = Some {| epoch := 1; tree := Some doc |}.
Proof.
  intros Hs. unfold after, Parse, bind, new_Parser, Parser_Parse; simpl.
  rewrite Hs; simpl. rewrite !lookup_insert_eq. reflexivity.
Qed.

Lemma ParseBytes_Parse (b : list byte) (w : World) :
  ParseBytes b w = Parse (Go.b2s b) w.
Proof. reflexivity. Qed.

Lemma MustParse_after (s : string) (w : World) :
  after (MustParse s) w = after (Parse s) w.
Proof.
  unfold after, MustParse, bind, ret. destruct (Parse s w) as [[v|err] w'];
    reflexivity.
Qed.

Lemma MustParseBytes_after (b : list byte) (w : World) :
  after (MustParseBytes b) w = after (Parse (Go.b2s b)) w.
Proof.
  unfold after, MustParseBytes, bind, ret. rewrite ParseBytes_Parse.
  destruct (Parse (Go.b2s b) w) as [[v|err] w']; reflexivity.
Qed.

(** *** Every call is a borrow, a borrow and an allocation, or a private
    parse *)

Lemma run_call_cases (c : Call) (w : World) :
  (exists data, run_call c w = after (pool_cycle data) w)
  \/ (exists data z,
        run_call c w = after (big_NewInt z) (after (pool_cycle data) w))
  \/ (exists s, run_call c w = after (Parse s) w).
Proof.
  destruct c; simpl.
  - left. exists data. unfold after at 1. rewrite GetString_run. reflexivity.
  - left. exists data. unfold after at 1. rewrite GetBytes_run. reflexivity.
  - left. exists data. unfold after at 1. rewrite GetInt_run. reflexivity.
  - left. exists data. unfold after at 1. rewrite GetHex_run. reflexivity.
  - right. left. exists data. eexists. unfold after at 1.
    rewrite GetBigint_run. reflexivity.
  - left. exists data. unfold after at 1. rewrite GetFloat64_run. reflexivity.
  - left. exists data. unfold after at 1. rewrite GetBool_run. reflexivity.
  - left. exists data. unfold after at 1. rewrite Exists_run. reflexivity.
  - right. right. exists s. reflexivity.
  - right. right. exists s. apply MustParse_after.
  - right. right. exists (Go.b2s b). reflexivity.
  - right. right. exists (Go.b2s b). apply MustParseBytes_after.
Qed.

Lemma taken_not_private (o : nat) (w : World) : private o w -> o <> taken w.
Proof.
  unfold private, taken. intros [Hlt Hnot].
  destruct (handyPool w) as [|p idle]; simpl.
  - lia.
  - intros ->. apply Hnot. left.
Qed.

Lemma pool_cycle_private (data : list byte) (o : nat) (w : World) :
  private o w ->
  private o (after (pool_cycle data) w)
  /\ parsers (after (pool_cycle data) w) !! o = parsers w !! o.
Proof.
  intros Hp. pose proof (taken_not_private _ _ Hp) as Hne.
  split; [|apply pool_cycle_parsers; exact Hne].
  destruct Hp as [Hlt Hnot]. split.
  - rewrite pool_cycle_next_parser. destruct (handyPool w); lia.
  - rewrite pool_cycle_idle. intros Hin. apply elem_of_cons in Hin.
    destruct Hin as [->|Hin]; [congruence|].
    apply Hnot. destruct (handyPool w) as [|q idle]; simpl in Hin;
      [exact Hin|right; exact Hin].
Qed.

Lemma Parse_private (s : string) (o : nat) (w : World) :
  private o w ->
  private o (after (Parse s) w)
  /\ parsers (after (Parse s) w) !! o = parsers w !! o.
Proof.
  intros [Hlt Hnot].
  destruct (Parse_fields s w) as (Hpool & _ & _ & _ & Hnext).
  split; [split|].
  - rewrite Hnext. lia.
  - rewrite Hpool. exact Hnot.
  - apply Parse_parsers. lia.
Qed.

Lemma run_call_private (c : Call) (o : nat) (w : World) :
  private o w ->
  private o (run_call c w) /\ parsers (run_call c w) !! o = parsers w !! o.
Proof.
  intros Hp.
  destruct (run_call_cases c w) as [[data ->]|[(data & z & ->)|[s ->]]].
  - apply pool_cycle_private, Hp.
  - apply (pool_cycle_private data) in Hp. exact Hp.
  - apply Parse_private, Hp.
Qed.

Lemma run_calls_private (cs : list Call) (o : nat) (w : World) :
  private o w ->
  private o (run_calls cs w) /\ parsers (run_calls cs w) !! o = parsers w !! o.
Proof.
  revert w. induction cs as [|c cs IH]; intros w Hp; simpl.
  - split; [exact Hp|reflexivity].
  - destruct (run_call_private c o w Hp) as [Hp' Heq].
    destruct (IH _ Hp') as [Hp'' Heq']. split; [exact Hp''|].
    rewrite Heq'. exact Heq.
Qed.

(** *** Big integers are allocated, never overwritten *)

Lemma run_call_bigints (c : Call) (w : World) (a : nat) :
  (a < next_bigint w)%nat ->
  (a < next_bigint (run_call c w))%nat
  /\ bigints (run_call c w) !! a = bigints w !! a.
Proof.
  intros Ha.
  destruct (run_call_cases c w) as [[data ->]|[(data & z & ->)|[s ->]]].
  - destruct (pool_cycle_bigints data w) as [-> ->]. split; [exact Ha|reflexivity].
  - destruct (pool_cycle_bigints data w) as [Hb Hn].
    unfold after at 1 3, big_NewInt; simpl. rewrite Hb, Hn.
    split; [lia|]. apply lookup_insert_ne. lia.
  - destruct (Parse_fields s w) as (_ & _ & -> & -> & _).
    split; [exact Ha|reflexivity].
Qed.

Lemma run_calls_bigints (cs : list Call) (w : World) (a : nat) :
  (a < next_bigint w)%nat ->
  bigints (run_calls cs w) !! a = bigints w !! a.
Proof.
  revert w. induction cs as [|c cs IH]; intros w Ha; simpl; [reflexivity|].
  destruct (run_call_bigints c w a Ha) as [Ha' Heq].
  rewrite (IH _ Ha'). exact Heq.
Qed.

(** *** Reachable states are well formed *)

Lemma init_world_wf : wf init_world.
Proof.
  split; simpl.
  - constructor.
  - intros a _. apply lookup_empty.
  - intros a _. apply lookup_empty.
Qed.

Lemma pool_cycle_wf (data : list byte) (w : World) :
  wf w -> wf (after (pool_cycle data) w).
Proof.
  intros [Hpool Hpar Hbig]. split.
  - rewrite pool_cycle_idle, pool_cycle_next_parser. unfold taken.
    destruct (handyPool w) as [|p idle]; simpl.
    + constructor; [lia|constructor].
    + exact Hpool.
  - intros a Ha. rewrite pool_cycle_next_parser in Ha.
    rewrite pool_cycle_parsers.
    + apply Hpar. destruct (handyPool w); lia.
    + unfold taken. destruct (handyPool w) as [|p idle]; simpl; [lia|].
      inversion Hpool; subst. lia.
  - intros a Ha. destruct (pool_cycle_bigints data w) as [Hb Hn].
    rewrite Hb. apply Hbig. lia.
Qed.

Lemma big_NewInt_wf (z : Z) (w : World) : wf w -> wf (after (big_NewInt z) w).
Proof.
  intros [Hpool Hpar Hbig]. split; simpl; [exact Hpool|exact Hpar|].
  intros a Ha. rewrite lookup_insert_ne by lia. apply Hbig. lia.
Qed.

Lemma Parse_wf (s : string) (w : World) : wf w -> wf (after (Parse s) w).
Proof.
  intros [Hpool Hpar Hbig].
  destruct (Parse_fields s w) as (Hp & _ & Hb & Hnb & Hn). split.
  - rewrite Hp, Hn. eapply Forall_impl; [exact Hpool|]. simpl. intros; lia.
  - intros a Ha. rewrite Hn in Ha. rewrite Parse_parsers by lia.
    apply Hpar. lia.
  - intros a Ha. rewrite Hb. apply Hbig. lia.
Qed.

Lemma run_call_wf (c : Call) (w : World) : wf w -> wf (run_call c w).
Proof.
  intros Hw.
  destruct (run_call_cases c w) as [[data ->]|[(data & z & ->)|[s ->]]].
  - apply pool_cycle_wf, Hw.
  - apply big_NewInt_wf, pool_cycle_wf, Hw.
  - apply Parse_wf, Hw.
Qed.

Lemma run_calls_wf (cs : list Call) (w : World) : wf w -> wf (run_calls cs w).
Proof.
  revert w. induction cs as [|c cs IH]; intros w Hw; simpl; [exact Hw|].
  apply IH, run_call_wf, Hw.
Qed.

Lemma big_NewInt_later (z : Z) (w : World) (later : list Call) :
  big_value (run_calls later (after (big_NewInt z) w)) (result (big_NewInt z) w)
  = Some z.
Proof.
  unfold big_value, result; simpl.
  rewrite run_calls_bigints by (simpl; lia).
  simpl. apply lookup_insert_eq.
Qed.

Lemma GetBigint_later (data : list byte) (keys : list string) (w : World)
    (later : list Call) :
  big_value (run_calls later (after (GetBigint data keys) w))
    (result (GetBigint data keys) w)
  = Some (default 0 (resolve data keys ≫= node_bigint)).
Proof.
  unfold result, after. rewrite GetBigint_run. apply big_NewInt_later.
Qed.

Lemma GetBigint_value (data : list byte) (keys : list string) (w : World) :
  big_value (after (GetBigint data keys) w) (result (GetBigint data keys) w)
  = Some (default 0 (resolve data keys ≫= node_bigint)).
Proof. exact (GetBigint_later data keys w []). Qed.

Lemma accessor_call_cases (c : Call) (w : World) :
  is_accessor c = true ->
  (exists data, run_call c w = after (pool_cycle data) w)
  \/ (exists data z,
        run_call c w = after (big_NewInt z) (after (pool_cycle data) w)).
Proof.
  intros Hc. destruct c; try discriminate Hc; simpl.
  - left. exists data. unfold after at 1. rewrite GetString_run. reflexivity.
  - left. exists data. unfold after at 1. rewrite GetBytes_run. reflexivity.
  - left. exists data. unfold after at 1. rewrite GetInt_run. reflexivity.
  - left. exists data. unfold after at 1. rewrite GetHex_run. reflexivity.
  - right. exists data. eexists. unfold after at 1. rewrite GetBigint_run.
    reflexivity.
  - left. exists data. unfold after at 1. rewrite GetFloat64_run. reflexivity.
  - left. exists data. unfold after at 1. rewrite GetBool_run. reflexivity.
  - left. exists data. unfold after at 1. rewrite Exists_run. reflexivity.
Qed.

Lemma parse_call_cases (c : Call) (w : World) :
  is_accessor c = false -> exists s, run_call c w = after (Parse s) w.
Proof.
  destruct c; try discriminate; intros _; simpl.
  - exists s. reflexivity.
  - exists s. apply MustParse_after.
  - exists (Go.b2s b). reflexivity.
  - exists (Go.b2s b). apply MustParseBytes_after.
Qed.

(** *** How long what an accessor returns can be read *)

(** The bytes a view carries are those the getter read in the document of
    its value, and the view is tied to that value's parser and parse. *)
Lemma view_reads_document (v : Value) (keys : list string) (w : World)
    (o s : nat) (l : list byte) :
  result (Value_GetStringBytes v keys) w = Go.View o s l ->
  o = owner v /\ s = stamp v
  /\ (Value_document w v ≫= (fun doc => navigate doc keys)) ≫= node_string_bytes
     = Some l.
Proof.
  unfold result, Value_GetStringBytes, Value_Get, bind, ret; simpl.
  destruct ((Value_document w v ≫= (fun doc => navigate doc keys))
              ≫= node_string_bytes) as [l'|]; [|discriminate].
  intros [= <- <- <-]. auto.
Qed.

Lemma pool_cycle_epoch (data : list byte) (w : World) :
  epoch <$> parsers (after (pool_cycle data) w) !! taken w
  = Some (taken_stamp w).
Proof.
  unfold taken, taken_stamp.
  run_accessor w data; rewrite ?lookup_insert_eq; reflexivity.
Qed.

Lemma buffer_live_epoch (w : World) (o s e : nat) :
  epoch <$> parsers w !! o = Some e ->
  buffer_live w o s = bool_decide (e = s).
Proof.
  unfold buffer_live. destruct (parsers w !! o) as [p|]; simpl; [|discriminate].
  intros [= <-]. reflexivity.
Qed.

Lemma pool_cycle_taken_again (data : list byte) (w : World) :
  taken (after (pool_cycle data) w) = taken w
  /\ taken_stamp (after (pool_cycle data) w) = S (taken_stamp w).
Proof.
  pose proof (pool_cycle_epoch data w) as He.
  unfold taken at 1, taken_stamp at 1. rewrite pool_cycle_idle. simpl.
  split; [reflexivity|].
  destruct (parsers (after (pool_cycle data) w) !! taken w) as [p|];
    simpl in *; congruence.
Qed.

Lemma accessor_call_epoch (c : Call) (w : World) :
  is_accessor c = true ->
  epoch <$> parsers (run_call c w) !! taken w = Some (taken_stamp w).
Proof.
  intros Hc.
  destruct (accessor_call_cases c w Hc) as [[data ->]|(data & z & ->)].
  - apply pool_cycle_epoch.
  - unfold after at 1, big_NewInt; simpl. apply pool_cycle_epoch.
Qed.

(** The parser a borrow used is live, with the stamp of that borrow, when
    the borrow ends; the next accessor call takes the same parser and
    parses again. *)
Lemma borrowed_buffer_lifetime (data : list byte) (w : World) :
  buffer_live (after (pool_cycle data) w) (taken w) (taken_stamp w) = true
  /\ forall c, is_accessor c = true ->
       buffer_live (run_call c (after (pool_cycle data) w))
         (taken w) (taken_stamp w) = false.
Proof.
  split.
  - rewrite (buffer_live_epoch _ _ _ _ (pool_cycle_epoch data w)).
    apply bool_decide_eq_true. reflexivity.
  - intros c Hc. destruct (pool_cycle_taken_again data w) as [Ht Hs].
    pose proof (accessor_call_epoch c (after (pool_cycle data) w) Hc) as He.
    rewrite Ht, Hs in He. rewrite (buffer_live_epoch _ _ _ _ He).
    apply bool_decide_eq_false. lia.
Qed.

(** ** The claims *)


Lemma pool_cycle_borrows_once (data : list byte) (w : World) :
  borrows_once (pool_cycle data) w.
Proof.
  exists (taken w). split; [apply pool_cycle_trace|apply pool_cycle_idle].
Qed.

(** C2.  Every accessor releases the parser it acquired exactly once,
    whether the parse fails or succeeds: across the call the history of the
    pool grows by one acquisition and one release of the same parser, and
    that parser is idle again when the call returns. *)
Theorem accessors_release_exactly_once (w : World) (data : list byte)
    (keys : list string) :
  borrows_once (GetString data keys) w
  /\ borrows_once (GetBytes data keys) w
  /\ borrows_once (GetInt data keys) w
  /\ borrows_once (GetHex data keys) w
  /\ borrows_once (GetBigint data keys) w
  /\ borrows_once (GetFloat64 data keys) w
  /\ borrows_once (GetBool data keys) w
  /\ borrows_once (Exists data keys) w.
Proof.
  pose proof (pool_cycle_borrows_once data w) as H.
  unfold borrows_once, after in *.
  rewrite GetString_run, GetBytes_run, GetInt_run, GetHex_run, GetBigint_run,
    GetFloat64_run, GetBool_run, Exists_run.
  repeat split; exact H.
Qed.

(** C3.  On malformed input every accessor returns its declared default
    and no error; [Parse] and [ParseBytes] return the parse error, and
    [MustParse] panics with it. *)
Theorem malformed_input_defaults (w : World) (data : list byte)
    (keys : list string) (err : ParseError) :
  parse_text (Go.b2s data) = inr err ->
  result (GetString data keys) w = EmptyString
  /\ result (GetHex data keys) w = EmptyString
  /\ result (GetBytes data keys) w = Go.NilSlice
  /\ result (GetInt data keys) w = 0
  /\ big_value (after (GetBigint data keys) w) (result (GetBigint data keys) w)
     = Some 0
  /\ result (GetFloat64 data keys) w = float64_zero
  /\ result (GetBool data keys) w = false
  /\ result (Exists data keys) w = false
  /\ result (Parse (Go.b2s data)) w = inr err
  /\ result (ParseBytes data) w = inr err
  /\ result (MustParse (Go.b2s data)) w = Panics err.
Proof.
  intros Herr. pose proof (resolve_malformed data keys err Herr) as Hres.
  assert (HP : result (Parse (Go.b2s data)) w = inr err)
    by (rewrite Parse_result, Herr; reflexivity).
  repeat split.
  - unfold result. rewrite GetString_run, Hres. reflexivity.
  - unfold result. rewrite GetHex_run, Hres. reflexivity.
  - unfold result. rewrite GetBytes_run, Hres. reflexivity.
  - unfold result. rewrite GetInt_run, Hres. reflexivity.
  - rewrite GetBigint_value, Hres. reflexivity.
  - unfold result. rewrite GetFloat64_run, Hres. reflexivity.
  - unfold result. rewrite GetBool_run, Hres. reflexivity.
  - unfold result. rewrite Exists_run, Hres. reflexivity.
  - exact HP.
  - exact HP.
  - unfold result in *. unfold MustParse, bind, ret.
    destruct (Parse (Go.b2s data) w) as [[v|e] w']; simpl in *;
      congruence.
Qed.

(** C4, as the code has it.  [GetBytes] returns nil on every failure: a
    parse error, a path that does not resolve, a node that is not a
    string.  For a present string value that is not empty it returns a
    non-nil copy of its bytes, which differs from that marker; for a
    present string value that is empty it returns nil as well. *)
Theorem GetBytes_nil_marker (w : World) (data : list byte) (keys : list string) :
  (forall err, parse_text (Go.b2s data) = inr err ->
     result (GetBytes data keys) w = Go.NilSlice)
  /\ (forall doc, parse_text (Go.b2s data) = inl doc ->
        navigate doc keys ≫= node_string_bytes = None ->
        result (GetBytes data keys) w = Go.NilSlice)
  /\ (forall doc sb, parse_text (Go.b2s data) = inl doc ->
        navigate doc keys ≫= node_string_bytes = Some sb ->
        sb <> [] ->
        result (GetBytes data keys) w = Go.Slice sb
        /\ result (GetBytes data keys) w <> Go.NilSlice)
  /\ (forall doc, parse_text (Go.b2s data) = inl doc ->
        navigate doc keys ≫= node_string_bytes = Some [] ->
        result (GetBytes data keys) w = Go.NilSlice).
Proof.
  unfold result. rewrite GetBytes_run; simpl. split; [|split; [|split]].
  - intros err Herr. rewrite (resolve_malformed _ _ _ Herr). reflexivity.
  - intros doc Hdoc Hn. rewrite (resolve_ok _ _ _ Hdoc), Hn. reflexivity.
  - intros doc sb Hdoc Hn Hsb. rewrite (resolve_ok _ _ _ Hdoc), Hn.
    destruct sb as [|x l]; [congruence|]. split; [reflexivity|discriminate].
  - intros doc Hdoc Hn. rewrite (resolve_ok _ _ _ Hdoc), Hn. reflexivity.
Qed.

(** C5.  For a well-formed document with a string field at the path, the
    bytes [GetBytes] returns, converted to a string, are the string
    [GetString] returns; the two calls may start in different states. *)
Theorem GetBytes_GetString_roundtrip (w w' : World) (data : list byte)
    (keys : list string) (doc : Document) (n : Node) (sb : list byte) :
  parse_text (Go.b2s data) = inl doc ->
  navigate doc keys = Some n ->
  node_string_bytes n = Some sb ->
  Go.string_of (result (GetBytes data keys) w) = result (GetString data keys) w'.
Proof.
  intros Hdoc Hnav Hsb. unfold result.
  rewrite GetBytes_run, GetString_run, (resolve_ok _ _ _ Hdoc), Hnav; simpl.
  rewrite Hsb; simpl. destruct sb; reflexivity.
Qed.

(** C6.  [MustParse] and [MustParseBytes] run [Parse] and [ParseBytes]:
    on success they return the same document and leave the same state; on
    failure they panic, and the cause of the panic is the error [Parse]
    (or [ParseBytes]) returned. *)
Theorem MustParse_agrees_or_panics (w : World) (s : string) (b : list byte) :
  MustParse s w
  = (match result (Parse s) w with
     | inl v => Returns v
     | inr err => Panics err
     end, after (Parse s) w)
  /\ MustParseBytes b w
     = (match result (ParseBytes b) w with
        | inl v => Returns v
        | inr err => Panics err
        end, after (ParseBytes b) w).
Proof.
  unfold result, after, MustParse, MustParseBytes, bind, ret. split.
  - destruct (Parse s w) as [[v|err] w1]; reflexivity.
  - destruct (ParseBytes b w) as [[v|err] w1]; reflexivity.
Qed.

(** C7.  On a well-formed document and a path that resolves to no node,
    every value accessor returns its default and [Exists] returns false. *)
Theorem unresolved_path_defaults (w : World) (data : list byte)
    (keys : list string) (doc : Document) :
  parse_text (Go.b2s data) = inl doc ->
  navigate doc keys = None ->
  result (GetString data keys) w = EmptyString
  /\ result (GetHex data keys) w = EmptyString
  /\ result (GetBytes data keys) w = Go.NilSlice
  /\ result (GetInt data keys) w = 0
  /\ big_value (after (GetBigint data keys) w) (result (GetBigint data keys) w)
     = Some 0
  /\ result (GetFloat64 data keys) w = float64_zero
  /\ result (GetBool data keys) w = false
  /\ result (Exists data keys) w = false.
Proof.
  intros Hdoc Hnav.
  assert (Hres : resolve data keys = None)
    by (rewrite (resolve_ok _ _ _ Hdoc); exact Hnav).
  repeat split.
  - unfold result. rewrite GetString_run, Hres. reflexivity.
  - unfold result. rewrite GetHex_run, Hres. reflexivity.
  - unfold result. rewrite GetBytes_run, Hres. reflexivity.
  - unfold result. rewrite GetInt_run, Hres. reflexivity.
  - rewrite GetBigint_value, Hres. reflexivity.
  - unfold result. rewrite GetFloat64_run, Hres. reflexivity.
  - unfold result. rewrite GetBool_run, Hres. reflexivity.
  - unfold result. rewrite Exists_run, Hres. reflexivity.
Qed.

(** C9.  [Parse] and [ParseBytes] leave the pool as it is and work on a
    parser allocated by the call itself, at an address where no parser
    was and that the pool does not hold; a document they return reads the
    same after any later calls of the functions of this file. *)
Theorem Parse_private_document (w : World) (s : string) (b : list byte) :
  wf w ->
  (handyPool (after (Parse s) w) = handyPool w
   /\ pool_trace (after (Parse s) w) = pool_trace w
   /\ handyPool (after (ParseBytes b) w) = handyPool w
   /\ pool_trace (after (ParseBytes b) w) = pool_trace w)
  /\ (forall v, result (Parse s) w = inl v ->
        parsers w !! owner v = None
        /\ (owner v ∉ handyPool w)
        /\ exists doc, parse_text s = inl doc
             /\ forall later,
                  Value_document (run_calls later (after (Parse s) w)) v
                  = Some doc)
  /\ (forall v, result (ParseBytes b) w = inl v ->
        parsers w !! owner v = None
        /\ (owner v ∉ handyPool w)
        /\ exists doc, parse_text (Go.b2s b) = inl doc
             /\ forall later,
                  Value_document (run_calls later (after (ParseBytes b) w)) v
                  = Some doc).
Proof.
  intros Hw.
  assert (Hone : forall t v, result (Parse t) w = inl v ->
            parsers w !! owner v = None
            /\ (owner v ∉ handyPool w)
            /\ exists doc, parse_text t = inl doc
                 /\ forall later,
                      Value_document (run_calls later (after (Parse t) w)) v
                      = Some doc).
  { intros t v Hv. rewrite Parse_result in Hv.
    destruct (parse_text t) as [doc|err] eqn:Ht; [|discriminate].
    injection Hv as <-. simpl.
    assert (Hnot : next_parser w ∉ handyPool w).
    { intros Hin. destruct Hw as [Hpool _ _].
      rewrite Forall_forall in Hpool. apply Hpool in Hin. lia. }
    split; [apply (wf_parsers _ Hw); lia|]. split; [exact Hnot|].
    exists doc. split; [reflexivity|]. intros later.
    destruct (Parse_fields t w) as (Hp & _ & _ & _ & Hn).
    assert (Hpriv : private (next_parser w) (after (Parse t) w)).
    { split; [rewrite Hn; lia|rewrite Hp; exact Hnot]. }
    destruct (run_calls_private later _ _ Hpriv) as [_ Heq].
    unfold Value_document; simpl. rewrite Heq, (Parse_document t w doc Ht).
    reflexivity. }
  split; [|split].
  - destruct (Parse_fields s w) as (Hp & Ht & _).
    destruct (Parse_fields (Go.b2s b) w) as (Hp' & Ht' & _).
    repeat split; assumption.
  - apply Hone.
  - apply (Hone (Go.b2s b)).
Qed.

(** C10.  [GetBigint] never returns nil: for every input and path the
    result is a pointer to a big integer allocated by the call, at the
    address of the allocation counter, where nothing was stored in a
    well-formed state; on a parse failure that big integer is zero. *)
Theorem GetBigint_never_nil (w : World) (data : list byte) (keys : list string) :
  exists a,
    result (GetBigint data keys) w = Some a
    /\ a = next_bigint w
    /\ (wf w -> bigints w !! a = None)
    /\ is_Some (bigints (after (GetBigint data keys) w) !! a)
    /\ (forall err, parse_text (Go.b2s data) = inr err ->
          bigints (after (GetBigint data keys) w) !! a = Some 0).
Proof.
  exists (next_bigint w). unfold result, after. rewrite GetBigint_run.
  destruct (pool_cycle_bigints data w) as [Hb Hn].
  unfold big_NewInt; simpl. rewrite Hn, Hb. repeat split.
  - intros Hw. apply (wf_bigints _ Hw). lia.
  - rewrite lookup_insert_eq. eauto.
  - intros err Herr. rewrite lookup_insert_eq, (resolve_malformed _ _ _ Herr).
    reflexivity.
Qed.

End HandyProperties.

(** ** Further properties of handy.go *)

Section HandyMore.

Context {E : DocumentEngine}.

Lemma accessor_call_pool (c : Call) (w : World) :
  is_accessor c = true ->
  handyPool (run_call c w) = taken w :: tl (handyPool w)
  /\ pool_trace (run_call c w)
     = pool_trace w ++ [Acquired (taken w); Released (taken w)]
  /\ next_parser (run_call c w)
     = match handyPool w with
       | [] => S (next_parser w)
       | _ :: _ => next_parser w
       end.
Proof.
  intros Hc.
  destruct (accessor_call_cases c w Hc) as [[data ->]|(data & z & ->)].
  - split; [apply pool_cycle_idle|]. split; [apply pool_cycle_trace|].
    apply pool_cycle_next_parser.
  - unfold after at 1 3 5, big_NewInt; simpl.
    split; [apply pool_cycle_idle|]. split; [apply pool_cycle_trace|].
    apply pool_cycle_next_parser.
Qed.

Lemma parse_call_pool (c : Call) (w : World) :
  is_accessor c = false ->
  handyPool (run_call c w) = handyPool w
  /\ pool_trace (run_call c w) = pool_trace w
  /\ next_parser (run_call c w) = S (next_parser w).
Proof.
  intros Hc. destruct (parse_call_cases c w Hc) as [s ->].
  destruct (Parse_fields s w) as (Hp & Ht & _ & _ & Hn). auto.
Qed.

(** Once a parser is idle at the head of the pool, every later borrow takes
    that parser and puts it back: the idle list stays as it is. *)
Lemma run_calls_pool_head (cs : list Call) (w : World) (p : nat) (idle : list nat) :
  handyPool w = p :: idle ->
  handyPool (run_calls cs w) = p :: idle
  /\ pool_trace (run_calls cs w) = pool_trace w ++ borrows p (accessor_calls cs)
  /\ next_parser (run_calls cs w) = (next_parser w + parse_calls cs)%nat.
Proof.
  revert w. induction cs as [|c cs IH]; intros w Hw; simpl.
  - rewrite app_nil_r. split; [exact Hw|]. split; [reflexivity|].
    unfold parse_calls; simpl. lia.
  - unfold accessor_calls, parse_calls; simpl.
    destruct (is_accessor c) eqn:Hc; simpl.
    + destruct (accessor_call_pool c w Hc) as (Hp & Ht & Hn).
      unfold taken in Hp, Ht. rewrite Hw in Hp, Ht, Hn; simpl in Hp, Ht.
      destruct (IH _ Hp) as (Hp' & Ht' & Hn').
      split; [exact Hp'|]. split.
      * rewrite Ht', Ht, <- app_assoc. reflexivity.
      * rewrite Hn', Hn. reflexivity.
    + destruct (parse_call_pool c w Hc) as (Hp & Ht & Hn).
      rewrite Hw in Hp. destruct (IH _ Hp) as (Hp' & Ht' & Hn').
      split; [exact Hp'|]. split.
      * rewrite Ht', Ht. reflexivity.
      * rewrite Hn', Hn. unfold parse_calls. lia.
Qed.

(** X1.  What an accessor returns depends on the data and the path alone,
    for every input, well formed or not: two calls with the same arguments
    return the same value whatever states they start in (for [GetHex], a
    string with the same content; for [GetBigint], a pointer to the same
    number). *)
Theorem accessor_results_state_independent (w w' : World) (data : list byte)
    (keys : list string) :
  result (GetString data keys) w = result (GetString data keys) w'
  /\ result (GetBytes data keys) w = result (GetBytes data keys) w'
  /\ result (GetInt data keys) w = result (GetInt data keys) w'
  /\ Go.content (result (GetHex data keys) w)
     = Go.content (result (GetHex data keys) w')
  /\ big_value (after (GetBigint data keys) w) (result (GetBigint data keys) w)
     = big_value (after (GetBigint data keys) w')
         (result (GetBigint data keys) w')
  /\ result (GetFloat64 data keys) w = result (GetFloat64 data keys) w'
  /\ result (GetBool data keys) w = result (GetBool data keys) w'
  /\ result (Exists data keys) w = result (Exists data keys) w'.
Proof.
  rewrite !GetBigint_value. unfold result.
  rewrite !GetString_run, !GetBytes_run, !GetInt_run, !GetHex_run,
    !GetFloat64_run, !GetBool_run, !Exists_run.
  repeat split. simpl. destruct (resolve data keys ≫= node_hex); reflexivity.
Qed.

(** X2.  For every input and path, the bytes [GetBytes] returns, converted
    to a string, are the string [GetString] returns: also when the
    document is malformed, the path does not resolve or the node is not a
    string. *)
Theorem GetBytes_GetString_agree (w w' : World) (data : list byte)
    (keys : list string) :
  Go.string_of (result (GetBytes data keys) w) = result (GetString data keys) w'.
Proof.
  unfold result. rewrite GetBytes_run, GetString_run; simpl.
  destruct (resolve data keys ≫= node_string_bytes) as [[|x l]|]; reflexivity.
Qed.

Lemma string_of_list_byte_empty (l : list byte) :
  string_of_list_byte l = EmptyString -> l = [].
Proof. destruct l; [reflexivity|discriminate]. Qed.

(** X3.  [GetBytes] never returns an empty slice that is not nil: its
    result is nil exactly when it holds no byte, and exactly when
    [GetString] returns the empty string for the same arguments. *)
Theorem GetBytes_nil_iff_empty (w w' : World) (data : list byte)
    (keys : list string) :
  (result (GetBytes data keys) w = Go.NilSlice
   <-> Go.elems_of (result (GetBytes data keys) w) = [])
  /\ (result (GetBytes data keys) w = Go.NilSlice
      <-> result (GetString data keys) w' = EmptyString).
Proof.
  unfold result. rewrite GetBytes_run, GetString_run; simpl.
  destruct (resolve data keys ≫= node_string_bytes) as [[|x l]|]; simpl;
    repeat split; intros; try reflexivity; discriminate.
Qed.

(** X4.  Parsers are allocated by the parse entry points, one per call,
    and by the first accessor call that finds the pool empty, and by
    nothing else: after any history the number of parsers allocated has
    grown by the number of parse calls, plus one if the pool was empty and
    an accessor was called. *)
Theorem parsers_allocated (cs : list Call) (w : World) :
  next_parser (run_calls cs w)
  = (next_parser w + parse_calls cs
     + match handyPool w, accessor_calls cs with
       | [], S _ => 1
       | _, _ => 0
       end)%nat.
Proof.
  revert w. induction cs as [|c cs IH]; intros w.
  - simpl. unfold parse_calls; simpl. destruct (handyPool w); lia.
  - destruct (handyPool w) as [|p idle] eqn:Hw.
    + simpl. unfold accessor_calls, parse_calls in *; simpl.
      destruct (is_accessor c) eqn:Hc; simpl.
      * destruct (accessor_call_pool c w Hc) as (Hp & _ & Hn).
        rewrite Hw in Hp, Hn. simpl in Hp.
        destruct (run_calls_pool_head cs _ _ _ Hp) as (_ & _ & Hn').
        rewrite Hn', Hn. unfold parse_calls. lia.
      * destruct (parse_call_pool c w Hc) as (Hp & _ & Hn).
        rewrite IH, Hp, Hw, Hn. lia.
    + destruct (run_calls_pool_head (c :: cs) _ _ _ Hw) as (_ & _ & Hn).
      rewrite Hn. lia.
Qed.

(** X5.  Starting with an empty pool, all accessor calls of a history
    share one parser: the pool history is that of as many borrows of this
    parser as there were accessor calls, and between calls the idle list
    holds this parser and nothing else (nothing at all before the first
    accessor call). *)
Theorem accessors_share_one_parser (cs : list Call) :
  exists p,
    pool_trace (run_calls cs init_world) = borrows p (accessor_calls cs)
    /\ handyPool (run_calls cs init_world)
       = match accessor_calls cs with
         | O => []
         | S _ => [p]
         end.
Proof.
  assert (H : forall cs w, handyPool w = [] -> exists p,
            pool_trace (run_calls cs w)
            = pool_trace w ++ borrows p (accessor_calls cs)
            /\ handyPool (run_calls cs w)
               = match accessor_calls cs with
                 | O => []
                 | S _ => [p]
                 end).
  { clear cs. induction cs as [|c cs IH]; intros w Hw.
    - exists 0%nat. simpl. rewrite app_nil_r. auto.
    - simpl. unfold accessor_calls in *; simpl.
      destruct (is_accessor c) eqn:Hc; simpl.
      + destruct (accessor_call_pool c w Hc) as (Hp & Ht & _).
        unfold taken in Hp, Ht. rewrite Hw in Hp, Ht. simpl in Hp, Ht.
        destruct (run_calls_pool_head cs _ _ _ Hp) as (Hp' & Ht' & _).
        exists (next_parser w). split; [|exact Hp'].
        rewrite Ht', Ht, <- app_assoc. reflexivity.
      + destruct (parse_call_pool c w Hc) as (Hp & Ht & _).
        rewrite Hw in Hp. destruct (IH _ Hp) as (p & Ht' & Hp').
        exists p. rewrite Ht', Ht. auto. }
  destruct (H cs init_world eq_refl) as (p & Ht & Hp). exists p. auto.
Qed.

(** X8.  What [GetString] and [GetBytes] return is never a view into the
    buffer of a parser, for any input and path: [GetBytes] returns nil or
    the slice [append] allocated, [GetString] the string the conversion
    made; so both results can be read after any later calls. *)
Theorem GetString_GetBytes_own_storage (w : World) (data : list byte)
    (keys : list string) :
  (forall o s l, result (GetBytes data keys) w <> Go.View o s l)
  /\ (forall o s t, result (GetString data keys) w <> Go.StrView o s t)
  /\ forall later,
       slice_valid (run_calls later (after (GetBytes data keys) w))
         (result (GetBytes data keys) w) = true
       /\ str_valid (run_calls later (after (GetString data keys) w))
            (result (GetString data keys) w) = true.
Proof.
  unfold result, after. rewrite GetBytes_run, GetString_run; simpl.
  destruct (resolve data keys ≫= node_string_bytes) as [[|x l]|];
    repeat split; intros; discriminate.
Qed.

(** X7.  [Exists] answers for all the value accessors: when it returns
    false for some data and path, each of them returns its default there,
    whatever state it is called in. *)
Theorem Exists_false_defaults (w w' : World) (data : list byte)
    (keys : list string) :
  result (Exists data keys) w = false ->
  result (GetString data keys) w' = EmptyString
  /\ result (GetBytes data keys) w' = Go.NilSlice
  /\ result (GetInt data keys) w' = 0
  /\ result (GetHex data keys) w' = EmptyString
  /\ big_value (after (GetBigint data keys) w')
       (result (GetBigint data keys) w') = Some 0
  /\ result (GetFloat64 data keys) w' = float64_zero
  /\ result (GetBool data keys) w' = false.
Proof.
  rewrite GetBigint_value. unfold result.
  rewrite Exists_run, GetString_run, GetBytes_run, GetInt_run, GetHex_run,
    GetFloat64_run, GetBool_run; simpl.
  destruct (resolve data keys) as [n|]; simpl.
  - rewrite ?bool_decide_true by eauto. discriminate.
  - intros _. repeat split.
Qed.

End HandyMore.

(** ** The JSON engine: navigation, and the accessors on concrete
    documents *)

Import Json.

(** *** The parser consumes its input and has fuel to spare *)
Ltac break_match :=
  match goal with
  | |- context [match ?x with _ => _ end] => destruct x eqn:?
  end.

Lemma skipWS_length (s : string) :
  (String.length (skipWS s) <= String.length s)%nat.
Proof.
  induction s as [|c r IH]; simpl; [lia|]. destruct (is_space c); simpl; lia.
Qed.

Lemma tail_length (s : string) :
  (String.length (tail s) <= String.length s)%nat.
Proof. destruct s; simpl; lia. Qed.

Lemma strip_length (lit s r : string) :
  strip lit s = Some r ->
  String.length s = (String.length lit + String.length r)%nat.
Proof.
  revert s. induction lit as [|a lit IH]; intros s; simpl.
  - intros [= ->]. reflexivity.
  - destruct s as [|c s']; [discriminate|].
    destruct (Ascii.eqb a c); [|discriminate].
    intros H. apply IH in H. simpl. lia.
Qed.

Lemma prepend_inl (cs : list ascii) (x : (string * string) + SyntaxError)
    (b r : string) :
  prepend cs x = inl (b, r) -> exists b', x = inl (b', r).
Proof.
  destruct x as [[b' r']|e]; simpl; [|discriminate].
  intros [= _ ->]. eauto.
Qed.

Lemma string_body_length (s b r : string) :
  string_body s = inl (b, r) -> (String.length r < String.length s)%nat.
Proof.
  assert (H : forall n s, (String.length s <= n)%nat -> forall b r,
            string_body s = inl (b, r) ->
            (String.length r < String.length s)%nat).
  { clear. induction n as [|n IH]; intros s Hn b r.
    - destruct s; simpl in *; [discriminate|lia].
    - destruct s as [|c s']; simpl; [discriminate|].
      repeat break_match; subst; simpl in *; try discriminate;
        try (intros [= _ <-]; lia);
        intros Hp; apply prepend_inl in Hp; destruct Hp as [b' Hp];
        apply IH in Hp; simpl in *; lia. }
  intros Hs. exact (H _ s (le_n _) b r Hs).
Qed.

Lemma digits_length (s : string) (acc : N) (count : nat) :
  match digits s acc count with
  | (_, c, r) => (String.length r + c = String.length s + count)%nat
  end.
Proof.
  revert acc count. induction s as [|ch r IH]; intros acc count; simpl.
  - reflexivity.
  - destruct (digit_val ch) as [d|]; simpl; [|reflexivity].
    specialize (IH (acc * 10 + d)%N (S count)).
    destruct (digits r (acc * 10 + d)%N (S count)) as [[n c] rest]. lia.
Qed.

Ltac count_digits :=
  match goal with
  | |- context [digits ?s ?a ?c] =>
      let H := fresh "Hdigits" in
      pose proof (digits_length s a c) as H;
      destruct (digits s a c) as [[? ?] ?]
  end.

Lemma fraction_length (s0 s3 : string) (fr : option (N * nat)) :
  (if starts_with 46 s0
   then let '(fp, nf, s3) := digits (tail s0) 0%N 0%nat in
        if (nf =? 0)%nat then inr MalformedSyntax
        else inl (Some (fp, nf), s3)
   else inl (None, s0)) = inl (fr, s3) :> _ + SyntaxError ->
  (String.length s3 <= String.length s0)%nat.
Proof.
  pose proof (tail_length s0) as Ht0. destruct (starts_with 46 s0).
  - count_digits. break_match; [discriminate|]. intros [= _ <-]. lia.
  - intros [= _ <-]. lia.
Qed.

Lemma number_length (s r : string) (n : Number) :
  number s = inl (n, r) -> (String.length r < String.length s)%nat.
Proof.
  unfold number.
  pose proof (tail_length s) as Ht.
  count_digits.
  destruct (Nat.eqb_spec n1 0);
    [destruct (if starts_with 45 s then tail s else s); discriminate|].
  break_match; [discriminate|].
  assert (Hs0 : (String.length s0 < String.length s)%nat)
    by (destruct (starts_with 45 s); lia).
  clear Hdigits.
  lazymatch goal with
  | |- context [match ?x with inl _ => _ | inr e => inr e end] =>
      destruct x as [[fr s3]|e] eqn:Hfr; [|discriminate]
  end.
  apply fraction_length in Hfr.
  pose proof (tail_length s3) as Ht3. pose proof (tail_length (tail s3)) as Ht4.
  break_match.
  - count_digits. break_match; [discriminate|]. intros [= _ <-].
    destruct (starts_with 45 (tail s3) || starts_with 43 (tail s3)); lia.
  - intros [= _ <-]. lia.
Qed.

#[local] Arguments strip : simpl never.

Lemma value_length (fuel : nat) :
  (forall s v r, value fuel s = inl (v, r) ->
     (String.length r < String.length s)%nat)
  /\ (forall s vs r, elements fuel s = inl (vs, r) ->
        (String.length r < String.length s)%nat)
  /\ (forall s ms r, members fuel s = inl (ms, r) ->
        (String.length r < String.length s)%nat).
Proof.
  induction fuel as [|f (IHv & IHe & IHm)].
  - repeat split; intros; discriminate.
  - split; [|split].
    + intros s v r. simpl. destruct s as [|c s']; [discriminate|].
      pose proof (skipWS_length s') as Hws.
      pose proof (tail_length (skipWS s')) as Htl.
      destruct (is_code 123 c).
      { destruct (starts_with 125 (skipWS s')).
        - intros [= _ <-]. simpl. lia.
        - destruct (members f (skipWS s')) as [[ms rest]|e] eqn:Hm;
            [|discriminate].
          intros [= _ <-]. apply IHm in Hm. simpl. lia. }
      destruct (is_code 91 c).
      { destruct (starts_with 93 (skipWS s')).
        - intros [= _ <-]. simpl. lia.
        - destruct (elements f (skipWS s')) as [[vs rest]|e] eqn:He;
            [|discriminate].
          intros [= _ <-]. apply IHe in He. simpl. lia. }
      destruct (is_code dquote c).
      { destruct (string_body s') as [[str rest]|e] eqn:Hb; [|discriminate].
        intros [= _ <-]. apply string_body_length in Hb. simpl. lia. }
      destruct (strip "true" (String c s')) as [rest|] eqn:H1.
      { intros [= _ <-]. apply strip_length in H1. simpl in *. lia. }
      destruct (strip "false" (String c s')) as [rest|] eqn:H2.
      { intros [= _ <-]. apply strip_length in H2. simpl in *. lia. }
      destruct (strip "null" (String c s')) as [rest|] eqn:H3.
      { intros [= _ <-]. apply strip_length in H3. simpl in *. lia. }
      destruct (number (String c s')) as [[n rest]|e] eqn:Hn; [|discriminate].
      intros [= _ <-]. apply number_length in Hn. exact Hn.
    + intros s vs r. simpl.
      pose proof (skipWS_length s) as Hws.
      destruct (value f (skipWS s)) as [[v r0]|e] eqn:Hv; [|discriminate].
      apply IHv in Hv. pose proof (skipWS_length r0) as Hws0.
      destruct (skipWS r0) as [|c r1]; [discriminate|]. simpl in Hws0.
      destruct (is_code 44 c).
      { destruct (elements f r1) as [[vs' rest]|e] eqn:He; [|discriminate].
        intros [= _ <-]. apply IHe in He. lia. }
      destruct (is_code 93 c); [|discriminate].
      intros [= _ <-]. lia.
    + intros s ms r. simpl.
      pose proof (skipWS_length s) as Hws.
      unfold expect at 1.
      destruct (skipWS s) as [|c0 r0]; [discriminate|]. simpl in Hws.
      destruct (is_code dquote c0); [|discriminate].
      destruct (string_body r0) as [[k r1]|e] eqn:Hb; [|discriminate].
      apply string_body_length in Hb.
      pose proof (skipWS_length r1) as Hws1. unfold expect.
      destruct (skipWS r1) as [|c1 r2]; [discriminate|]. simpl in Hws1.
      destruct (is_code 58 c1); [|discriminate].
      pose proof (skipWS_length r2) as Hws2.
      destruct (value f (skipWS r2)) as [[v r3]|e] eqn:Hv; [|discriminate].
      apply IHv in Hv. pose proof (skipWS_length r3) as Hws3.
      destruct (skipWS r3) as [|c r4]; [discriminate|]. simpl in Hws3.
      destruct (is_code 44 c).
      { destruct (members f r4) as [[ms' rest]|e] eqn:Hm; [|discriminate].
        intros [= _ <-]. apply IHm in Hm. lia. }
      destruct (is_code 125 c); [|discriminate].
      intros [= _ <-]. lia.
Qed.

Lemma fuel_stable (f : nat) :
  (forall f' s, (2 * String.length s + 1 <= f)%nat -> (f <= f')%nat ->
     value f' s = value f s)
  /\ (forall f' s, (2 * String.length s + 2 <= f)%nat -> (f <= f')%nat ->
        elements f' s = elements f s)
  /\ (forall f' s, (2 * String.length s + 2 <= f)%nat -> (f <= f')%nat ->
        members f' s = members f s).
Proof.
  induction f as [|f (IHv & IHe & IHm)].
  - repeat split; intros; lia.
  - split; [|split]; intros f' s Hs Hf; (destruct f' as [|g]; [lia|]); simpl.
    + destruct s as [|c s']; [reflexivity|]. simpl in Hs.
      pose proof (skipWS_length s') as Hws.
      rewrite (IHm g (skipWS s')), (IHe g (skipWS s')) by lia. reflexivity.
    + pose proof (skipWS_length s) as Hws.
      rewrite (IHv g (skipWS s)) by lia.
      destruct (value f (skipWS s)) as [[v r]|e] eqn:Hv; [|reflexivity].
      apply (proj1 (value_length f)) in Hv.
      pose proof (skipWS_length r) as Hws'.
      destruct (skipWS r) as [|c r1]; [reflexivity|]. simpl in Hws'.
      rewrite (IHe g r1) by lia. reflexivity.
    + pose proof (skipWS_length s) as Hws.
      destruct (expect dquote (skipWS s)) as [r0|e] eqn:Hq; [|reflexivity].
      assert (Hr0 : (String.length r0 < String.length (skipWS s))%nat).
      { unfold expect in Hq. destruct (skipWS s) as [|c0 r0']; [discriminate|].
        destruct (is_code dquote c0); [|discriminate].
        injection Hq as <-. simpl. lia. }
      destruct (string_body r0) as [[k r1]|e] eqn:Hb; [|reflexivity].
      apply string_body_length in Hb.
      pose proof (skipWS_length r1) as Hws1.
      destruct (expect 58 (skipWS r1)) as [r2|e] eqn:Hc; [|reflexivity].
      assert (Hr2 : (String.length r2 < String.length (skipWS r1))%nat).
      { unfold expect in Hc. destruct (skipWS r1) as [|c1 r2']; [discriminate|].
        destruct (is_code 58 c1); [|discriminate].
        injection Hc as <-. simpl. lia. }
      pose proof (skipWS_length r2) as Hws2.
      rewrite (IHv g (skipWS r2)) by lia.
      destruct (value f (skipWS r2)) as [[v r3]|e] eqn:Hv; [|reflexivity].
      apply (proj1 (value_length f)) in Hv.
      pose proof (skipWS_length r3) as Hws3.
      destruct (skipWS r3) as [|c r4]; [reflexivity|]. simpl in Hws3.
      rewrite (IHm g r4) by lia. reflexivity.
Qed.

(** The fuel [parse] gives to [value] is enough: with any larger amount
    the outcome is the same, so no text is rejected for lack of fuel. *)
Lemma parse_fuel_enough (s : string) (fuel : nat) :
  (2 * String.length s + 2 <= fuel)%nat ->
  value fuel (skipWS s) = value (2 * String.length s + 2) (skipWS s).
Proof.
  intros Hf. pose proof (skipWS_length s) as Hws.
  destruct (fuel_stable (2 * String.length (skipWS s) + 1)) as (Hv & _ & _).
  rewrite (Hv fuel), (Hv (2 * String.length s + 2)%nat) by lia. reflexivity.
Qed.

(** *** Path segments *)

Lemma digits_all_digits (s : string) (acc : N) (count : nat) :
  match digits s acc count with
  | (_, c, r) =>
      (all_digits s = true -> r = EmptyString /\ c = (count + String.length s)%nat)
      /\ (all_digits s = false -> r <> EmptyString)
  end.
Proof.
  revert acc count. induction s as [|ch r IH]; intros acc count; simpl.
  - split; [intros _; split; [reflexivity|lia]|discriminate].
  - destruct (digit_val ch) as [d|] eqn:Hd; simpl.
    + specialize (IH (acc * 10 + d)%N (S count)).
      destruct (digits r (acc * 10 + d)%N (S count)) as [[n c] rest].
      rewrite ?bool_decide_true by eauto. simpl.
      destruct IH as [IH1 IH2]. split; [|exact IH2].
      intros Hall. destruct (IH1 Hall) as [-> ->]. split; [reflexivity|lia].
    + rewrite ?bool_decide_false by (intros [? ?]; discriminate). simpl.
      split; [discriminate|intros _; discriminate].
Qed.

Lemma index_of_digit_string (k : string) :
  is_Some (index_of k) <-> digit_string k = true.
Proof.
  unfold index_of. pose proof (digits_all_digits k 0%N 0%nat) as H.
  destruct (digits k 0%N 0%nat) as [[n c] rest]. destruct H as [H1 H2].
  destruct k as [|ch r].
  - simpl in *. destruct (H1 eq_refl) as [-> ->]. split.
    + intros [x Hx]; discriminate.
    + discriminate.
  - unfold digit_string. destruct (all_digits (String ch r)) eqn:Hall.
    + destruct (H1 eq_refl) as [-> ->]. simpl. split; eauto.
    + specialize (H2 eq_refl). split; [|discriminate].
      intros [x Hx]. destruct c; [discriminate|].
      destruct rest; [congruence|discriminate].
Qed.

(** C8.  A path segment is an array index exactly when it is a non-empty
    string of decimal digits and the node it is resolved against is an
    array; against an object every segment, digits or not, is a key.  On
    the document with the array [10,20,30] under "arr", [GetInt] at
    "arr", "1" is 20, in any state; on an object with a member named "1",
    the segment "1" selects that member. *)
Theorem digit_segments_index_arrays :
  (forall k, is_Some (index_of k) <-> digit_string k = true)
  /\ (forall es k ks,
        get (JArray es) (k :: ks)
        = match index_of k with
          | Some i => match nth_error es i with
                      | Some x => get x ks
                      | None => None
                      end
          | None => None
          end)
  /\ (forall ms k ks,
        get (JObject ms) (k :: ks)
        = match member k ms with
          | Some x => get x ks
          | None => None
          end)
  /\ parse (Go.b2s doc_array) = inl tree_array
  /\ (forall w, result (GetInt doc_array ["arr"; "1"]) w = 20)
  /\ (forall w, result (GetString doc_digit_key ["1"]) w = "one")
  /\ (forall w, result (GetInt doc_digit_key ["arr"; "2"]) w = 30).
Proof.
  split; [exact index_of_digit_string|].
  split; [reflexivity|]. split; [reflexivity|].
  split; [vm_compute; reflexivity|].
  split; [|split]; intros w; unfold result.
  - rewrite GetInt_run. vm_compute. reflexivity.
  - rewrite GetString_run. vm_compute. reflexivity.
  - rewrite GetInt_run. vm_compute. reflexivity.
Qed.

(** The literal scenarios of the specification. *)
Example scenario_nested (w : World) :
  result (GetInt doc_nested ["a"; "b"]) w = 42
  /\ result (GetString doc_nested ["a"; "b"]) w = EmptyString
  /\ result (Exists doc_nested ["a"; "b"]) w = true.
Proof.
  unfold result. rewrite GetInt_run, GetString_run, Exists_run.
  vm_compute. repeat split.
Qed.

Example scenario_hex (w : World) :
  Go.content (result (GetHex doc_hex ["h"]) w) = "1f".
Proof. unfold result. rewrite GetHex_run. reflexivity. Qed.

Example scenario_big (w : World) :
  big_value (after (GetBigint doc_big ["big"]) w)
    (result (GetBigint doc_big ["big"]) w)
  = Some 123456789012345678901234567890.
Proof. rewrite GetBigint_value. vm_compute. reflexivity. Qed.

Example scenario_big_not_int (w : World) :
  result (GetInt doc_big ["big"]) w = 0.
Proof. unfold result. rewrite GetInt_run. vm_compute. reflexivity. Qed.

Example scenario_mixed (w : World) :
  result (GetFloat64 doc_mixed ["f"]) w
  = S754_finite true 5277655813324800 (-45)
  /\ result (GetBool doc_mixed ["t"]) w = true
  /\ result (Exists doc_mixed ["n"]) w = true
  /\ result (Exists doc_mixed ["7"; "1"]) w = true
  /\ result (Exists doc_mixed ["7"; "2"]) w = false
  /\ Go.s2b (Go.content (result (GetString doc_mixed ["s"]) w))
     = [x63; x61; x66; xc3; xa9]%byte.
Proof.
  unfold result.
  rewrite GetFloat64_run, GetBool_run, !Exists_run, GetString_run.
  vm_compute. repeat split.
Qed.

Example busy_world_pool :
  handyPool busy_world = [0%nat] /\ next_parser busy_world = 2%nat
  /\ pool_trace busy_world
     = [Acquired 0; Released 0; Acquired 0; Released 0].
Proof. vm_compute. repeat split. Qed.

(** ** The claims on concrete documents *)


Lemma malformed_input_defaults_witness :
  parse (Go.b2s doc_malformed) = inr MalformedSyntax
  /\ result (GetString doc_malformed ["a"]) busy_world = EmptyString
  /\ result (GetInt doc_malformed ["a"]) busy_world = 0
  /\ result (Exists doc_malformed ["a"]) busy_world = false
  /\ result (Parse (Go.b2s doc_malformed)) busy_world = inr MalformedSyntax
  /\ result (MustParse (Go.b2s doc_malformed)) busy_world
     = Panics MalformedSyntax.
Proof.
  assert (H1 : parse_text (Go.b2s doc_malformed) = inr MalformedSyntax)
    by (vm_compute; reflexivity).
  destruct (malformed_input_defaults busy_world doc_malformed ["a"]
              MalformedSyntax H1)
    as (Hs & _ & _ & Hi & _ & _ & _ & He & Hp & _ & Hm).
  repeat split; assumption.
Defined.

(** C4, as the claim states it, fails: the document has an empty string
    at the path, and [GetBytes] returns nil there, the value it returns
    for a document that does not parse. *)
Lemma GetBytes_empty_string_is_nil :
  parse (Go.b2s doc_empty_string) = inl tree_empty_string
  /\ get tree_empty_string ["a"] = Some (JString EmptyString)
  /\ as_string_bytes (JString EmptyString) = Some []
  /\ parse (Go.b2s doc_malformed) = inr MalformedSyntax
  /\ result (GetBytes doc_empty_string ["a"]) init_world = Go.NilSlice
  /\ result (GetBytes doc_malformed ["a"]) init_world = Go.NilSlice.
Proof. vm_compute. repeat split. Qed.

Lemma GetBytes_nil_marker_witness :
  parse (Go.b2s doc_hex) = inl tree_hex
  /\ result (GetBytes doc_hex ["h"]) busy_world = Go.Slice (Go.s2b "1f")
  /\ result (GetBytes doc_hex ["h"]) busy_world <> Go.NilSlice
  /\ result (GetBytes doc_empty_string ["a"]) busy_world = Go.NilSlice.
Proof.
  assert (H1 : parse_text (Go.b2s doc_hex) = inl tree_hex)
    by (vm_compute; reflexivity).
  assert (H2 : parse_text (Go.b2s doc_empty_string) = inl tree_empty_string)
    by (vm_compute; reflexivity).
  destruct (GetBytes_nil_marker busy_world doc_hex ["h"])
    as (_ & _ & Hfull & _).
  destruct (GetBytes_nil_marker busy_world doc_empty_string ["a"])
    as (_ & _ & _ & Hempty).
  destruct (Hfull tree_hex (Go.s2b "1f") H1 eq_refl) as [Hs Hn];
    [discriminate|].
  split; [exact H1|]. split; [exact Hs|]. split; [exact Hn|].
  exact (Hempty tree_empty_string H2 eq_refl).
Defined.

Lemma GetBytes_GetString_roundtrip_witness :
  parse (Go.b2s doc_hex) = inl tree_hex
  /\ get tree_hex ["h"] = Some (JString "1f")
  /\ Go.string_of (result (GetBytes doc_hex ["h"]) init_world)
     = result (GetString doc_hex ["h"]) busy_world
  /\ result (GetString doc_hex ["h"]) busy_world = "1f".
Proof.
  assert (H1 : parse_text (Go.b2s doc_hex) = inl tree_hex)
    by (vm_compute; reflexivity).
  assert (H2 : navigate tree_hex ["h"] = Some (JString "1f")) by reflexivity.
  split; [exact H1|]. split; [exact H2|]. split.
  - exact (GetBytes_GetString_roundtrip init_world busy_world doc_hex ["h"]
             tree_hex (JString "1f") (Go.s2b "1f") H1 H2 eq_refl).
  - unfold result. rewrite GetString_run. vm_compute. reflexivity.
Defined.

Lemma unresolved_path_defaults_witness :
  parse (Go.b2s doc_scalar) = inl tree_scalar
  /\ get tree_scalar ["a"; "x"] = None
  /\ result (GetInt doc_scalar ["a"; "x"]) busy_world = 0
  /\ result (Exists doc_scalar ["a"; "x"]) busy_world = false.
Proof.
  assert (H1 : parse_text (Go.b2s doc_scalar) = inl tree_scalar)
    by (vm_compute; reflexivity).
  assert (H2 : navigate tree_scalar ["a"; "x"] = None) by reflexivity.
  destruct (unresolved_path_defaults busy_world doc_scalar ["a"; "x"]
              tree_scalar H1 H2)
    as (_ & _ & _ & Hi & _ & _ & _ & He).
  repeat split; assumption.
Defined.

Lemma Parse_private_document_witness :
  wf busy_world
  /\ result (Parse (Go.b2s doc_nested)) busy_world
     = inl {| owner := 2; stamp := 1 |}
  /\ Value_document
       (run_calls [CallGetInt doc_array ["arr"; "1"]; CallGetBool doc_big [];
                   CallParseBytes doc_hex; CallMustParse (Go.b2s doc_malformed)]
          (after (Parse (Go.b2s doc_nested)) busy_world))
       {| owner := 2; stamp := 1 |}
     = Some tree_nested.
Proof.
  assert (Hw : wf busy_world) by (apply run_calls_wf, init_world_wf).
  assert (Hv : result (Parse (Go.b2s doc_nested)) busy_world
               = inl {| owner := 2; stamp := 1 |})
    by (vm_compute; reflexivity).
  destruct (Parse_private_document busy_world (Go.b2s doc_nested) doc_hex Hw)
    as (_ & Hdoc & _).
  destruct (Hdoc _ Hv) as (_ & _ & doc & Hparse & Hlater).
  split; [exact Hw|]. split; [exact Hv|].
  rewrite Hlater. f_equal.
  assert (Hsame : parse_text (Go.b2s doc_nested) = inl tree_nested)
    by (vm_compute; reflexivity).
  congruence.
Defined.

Lemma Exists_false_defaults_witness :
  result (Exists doc_scalar ["a"; "x"]) init_world = false
  /\ result (GetInt doc_scalar ["a"; "x"]) busy_world = 0
  /\ result (GetString doc_scalar ["a"; "x"]) busy_world = EmptyString.
Proof.
  assert (H : result (Exists doc_scalar ["a"; "x"]) init_world = false)
    by (vm_compute; reflexivity).
  destruct (Exists_false_defaults init_world busy_world doc_scalar
              ["a"; "x"] H) as (Hs & _ & Hi & _).
  repeat split; assumption.
Defined.
